(** * goignore: a shallow embedding of the gitignore matcher

    The Go sources are embedded function by function.  Go strings are byte
    sequences ([list ascii]); slices are lists; an index or slice expression
    that Go would stop with a run-time panic makes the embedded function
    return [None].  Loops are kept as loops over their index values, with
    the early [return]s of the source; the indices are natural numbers, and
    the one comparison against [len(pattern)-1], which is negative for an
    empty pattern, is made on integers. *)

From Stdlib Require Import ZArith Ascii String.
From stdpp Require Import base option list strings.

Local Open Scope Z_scope.
Local Open Scope nat_scope.

(** ** Bytes and strings *)

Abbreviation gostring := (list ascii).

(** A string literal of the source. *)
Definition go (s : string) : gostring := list_ascii_of_string s.

(** [s[l:r]]; [s[k:]] is [drop k s]. *)
Definition slice {A : Type} (s : list A) (l r : nat) : list A := take (r - l) (drop l s).

Definition byte_eqb (a b : ascii) : bool := Ascii.eqb a b.

(** The default of an index expression; indices read this way are in range. *)
#[global] Instance ascii_inhabited : Inhabited ascii := populate "000"%char.

Definition string_eqb (a b : gostring) : bool := bool_decide (a = b).

(** ** Loops with early return *)

Inductive flow (R S : Type) : Type :=
  | Return (r : R)
  | Continue (s : S).
Arguments Return {R S} r.
Arguments Continue {R S} s.

(** [for_each body idxs s] runs [body i] for the index values [idxs] in order,
    threading the loop state, and stops at the first [Return]. *)
Fixpoint for_each {I R S : Type} (body : I → S → flow R S) (idxs : list I) (s : S)
  : flow R S :=
  match idxs with
  | [] => Continue s
  | i :: idxs' =>
      match body i s with
      | Return r => Return r
      | Continue s' => for_each body idxs' s'
      end
  end.

(** The index values of [for j := hi - 1; j >= lo; j--]. *)
Definition descending (lo hi : nat) : list nat := rev (seq lo (hi - lo)).

(** ** mySplit (goignore.go, lines 13-28) *)

(** The state of the loop is the buffer, [idx] and [l]; a write at
    [idx = 1024] is out of range and panics.  [mySplit_step] is the body of
    the loop at index [r]. *)
Definition mySplit_step (s : gostring) (sep : ascii) (r : nat)
    (st : list gostring * nat * nat) : flow (option (list gostring)) _ :=
  let '(buf, idx, l) := st in
  if (r =? length s) || bool_decide (s !! r = Some sep) then
    if l <? r then
      if idx <? length buf
      then Continue (<[idx := slice s l r]> buf, idx + 1, r + 1)
      else Return None
    else Continue (buf, idx, r + 1)
  else Continue (buf, idx, l).

(** After the loop: [return pathComponents[:idx]]. *)
Definition mySplit_end (res : flow (option (list gostring)) (list gostring * nat * nat))
  : option (list gostring) :=
  match res with
  | Return r => r
  | Continue (buf, idx, _) => Some (take idx buf)
  end.

Definition mySplit (s : gostring) (sep : ascii) : option (list gostring) :=
  let pathComponents : list gostring := replicate 1024 [] in
  mySplit_end (for_each (mySplit_step s sep) (seq 0 (length s + 1)) (pathComponents, 0, 0)).

(** ** Rule (goignore.go, lines 35-40) *)

Record Rule : Type := mkRule {
  Components : list gostring;
  Negate : bool;
  OnlyDirectory : bool;
  Relative : bool
}.

(** ** stringMatch (goignore.go, lines 42-77) *)

(** The body of the loop at index [i], with loop state [j]; [recur] is
    [stringMatch] itself, called on [str[k:]] and [pattern[j+1:]]. *)
Definition stringMatch_body (recur : gostring → gostring → bool)
    (str pattern : gostring) (i j : nat) : flow bool nat :=
  if length pattern <=? j then Return false
  else
    match pattern !! j with
    | Some c =>
        if byte_eqb c "?" then Continue (j + 1)
        else if byte_eqb c "*" then
          Return (existsb (fun k => recur (drop k str) (drop (j + 1) pattern))
                    (descending i (length str + 1)))
        else if bool_decide (str !! i = Some c) then Continue (j + 1)
        else Return false
    | None => Return false
    end.

(** After the loop: [if j < len(pattern)-1 { return false }; return true],
    on Go's signed [int]. *)
Definition stringMatch_end (pattern : gostring) (res : flow bool nat) : bool :=
  match res with
  | Return b => b
  | Continue j =>
      if (Z.of_nat j <? Z.of_nat (length pattern) - 1)%Z then false else true
  end.

(** The recursion is on [pattern[j+1:]], which is shorter than [pattern];
    [n] bounds its depth. *)
Fixpoint stringMatch_rec (n : nat) (str pattern : gostring) : bool :=
  let recur :=
    match n with
    | 0 => fun _ _ => false
    | S n' => stringMatch_rec n'
    end in
  stringMatch_end pattern
    (for_each (stringMatch_body recur str pattern) (seq 0 (length str)) 0).

Definition stringMatch (str pattern : gostring) : bool :=
  stringMatch_rec (length pattern) str pattern.

(** ** matchComponents (goignore.go, lines 82-106) *)

(** The recursion is on [components[i+1:]]; [n] bounds its depth. *)
Fixpoint matchComponents_rec (n : nat) (path components : list gostring)
    (onlyDirectory : bool) : bool * bool :=
  match
    for_each (fun i (_ : unit) =>
        if length path <=? i then Return (false, false)
        else if string_eqb (components !!! i) (go "**") then
          Return
            match n with
            | 0 => (false, false)
            | S n' =>
                match
                  for_each (fun j (_ : unit) =>
                      let '(matched, final) :=
                        matchComponents_rec n' (drop j path) (drop (i + 1) components)
                          onlyDirectory in
                      if matched then Return (true, final) else Continue tt)
                    (descending i (length path)) tt
                with
                | Return r => r
                | Continue _ => (false, false)
                end
            end
        else if negb (stringMatch (path !!! i) (components !!! i))
        then Return (false, false)
        else Continue tt)
      (seq 0 (length components)) tt
  with
  | Return r => r
  | Continue _ => (true, length components =? length path)
  end.

Definition matchComponents (path components : list gostring) (onlyDirectory : bool)
  : bool * bool :=
  matchComponents_rec (length components) path components onlyDirectory.

(** ** Rule.Match (goignore.go, lines 109-128) *)

(** [strings.HasSuffix(path, "/")] *)
Definition HasSuffix_slash (path : gostring) : bool :=
  bool_decide (last path = Some "/"%char).

Definition Rule_Match (r : Rule) (path : gostring) : option bool :=
  let hasSuffix := HasSuffix_slash path in
  pathComponents ← mySplit path "/";
  if negb (Relative r) then
    match
      for_each (fun j (_ : unit) =>
          let '(matched, final) :=
            matchComponents (drop j pathComponents) (Components r) (OnlyDirectory r) in
          if matched then
            Return (negb (OnlyDirectory r)
                    || OnlyDirectory r && (negb final || final && hasSuffix))
          else Continue tt)
        (descending 0 (length pathComponents)) tt
    with
    | Return b => Some b
    | Continue _ => Some false
    end
  else
    let '(matched, final) :=
      matchComponents pathComponents (Components r) (OnlyDirectory r) in
    Some (matched
          && (negb (OnlyDirectory r)
              || OnlyDirectory r && (negb final || final && hasSuffix))).

(** ** Gitignore and CompileIgnoreLines (goignore.go, lines 131-154) *)

Record Gitignore : Type := mkGitignore { Rules : list Rule }.

(** [strings.Trim(s, cutset)] for a cutset of single-byte characters. *)
Fixpoint TrimLeft (s : gostring) (cutset : gostring) : gostring :=
  match s with
  | c :: s' => if existsb (byte_eqb c) cutset then TrimLeft s' cutset else s
  | [] => []
  end.

Definition TrimRight (s cutset : gostring) : gostring :=
  rev (TrimLeft (rev s) cutset).

Definition Trim (s cutset : gostring) : gostring :=
  TrimRight (TrimLeft s cutset) cutset.

(** The cutset of [CompileIgnoreLines]: space, tab, carriage return, newline. *)
Definition whitespace : gostring := [" "; "009"; "013"; "010"]%char.

(** ** createRule (goignore.go, lines 164-196) *)

(** [pattern[0]] and [pattern[len(pattern)-1]] panic on an empty string. *)
Definition createRule (pattern : gostring) : option Rule :=
  c ← pattern !! 0;
  let '(negate, pattern) :=
    if byte_eqb c "!" then (true, drop 1 pattern) else (false, pattern) in
  c ← pattern !! 0;
  let '(relative, pattern) :=
    if byte_eqb c "/" then (true, drop 1 pattern) else (false, pattern) in
  c ← pattern !! 0;
  let pattern := if byte_eqb c "\" then drop 1 pattern else pattern in
  c ← last pattern;
  let onlyDirectory := byte_eqb c "/" in
  components ← mySplit pattern "/";
  Some {| Components := components;
          Negate := negate;
          OnlyDirectory := onlyDirectory;
          Relative := relative || (1 <? length components) |}.

Definition CompileIgnoreLines (patterns : list gostring) : option Gitignore :=
  match
    for_each (fun pattern rules =>
        let pattern := Trim pattern whitespace in
        if bool_decide (pattern = []) || bool_decide (pattern !! 0 = Some "#"%char)
        then Continue rules
        else
          match createRule pattern with
          | Some rule => Continue (rules ++ [rule])
          | None => Return tt
          end)
      patterns []
  with
  | Return _ => None
  | Continue rules => Some {| Rules := rules |}
  end.

(** ** Gitignore.Match (goignore.go, lines 199-212) *)

(** [filepath.Separator] depends on the operating system. *)
Inductive GOOS : Type := Unix | Windows.

Definition Separator (os : GOOS) : ascii :=
  match os with Unix => "/" | Windows => "\" end%char.

(** [filepath.ToSlash]: the path itself when the separator is the slash,
    otherwise every separator replaced by a slash. *)
Definition ToSlash (os : GOOS) (path : gostring) : gostring :=
  if byte_eqb (Separator os) "/" then path
  else map (fun c => if byte_eqb c (Separator os) then "/"%char else c) path.

Definition Gitignore_Match (os : GOOS) (g : Gitignore) (path : gostring) : option bool :=
  let path := ToSlash os path in
  match
    for_each (fun rule matched =>
        match Rule_Match rule path with
        | None => Return tt
        | Some true => if negb (Negate rule) then Continue true else Continue false
        | Some false => Continue matched
        end)
      (Rules g) false
  with
  | Return _ => None
  | Continue matched => Some matched
  end.

(** ** CompileIgnoreFile (goignore.go, lines 157-161) *)

(** [strings.Split(s, sep)] for a one-byte separator: the fields between the
    separators, empty ones included; never an empty list. *)
Fixpoint Split_from (cur : gostring) (s : gostring) (sep : ascii) : list gostring :=
  match s with
  | [] => [cur]
  | c :: s' =>
      if byte_eqb c sep then cur :: Split_from [] s' sep
      else Split_from (cur ++ [c]) s' sep
  end.

Definition Split (s : gostring) (sep : ascii) : list gostring := Split_from [] s sep.

(** What [os.ReadFile] returns: the bytes read and the error, if any.  A
    failed read returns the bytes read so far (none when the file could not
    be opened) together with the error. *)
Definition ReadFile_result (E : Type) : Type := (gostring * option E)%type.

(** The Go function returns both values whatever the error is: the compiled
    set is built from the bytes that were read. *)
Definition CompileIgnoreFile {E : Type} (read : ReadFile_result E)
  : option (option Gitignore * option E) :=
  let '(lines, err) := read in
  g ← CompileIgnoreLines (Split lines "010");
  Some (Some g, err).

(** ** The revision with bracket classes

    A second revision of goignore.go is part of the sources: its
    [stringMatch] handles [[...]] and backslashes, its [createRule] splits
    with [strings.Split], its [CompileIgnoreFile] checks the error.  The
    functions that differ and that the properties below need are embedded
    here. *)
Module Revised.

Definition byte_leb (a b : ascii) : bool := (N_of_ascii a <=? N_of_ascii b)%N.

(** The loop [for ; j < len(pattern) && pattern[j] != ']'; j++] of the
    bracket case, for the text byte [c = str[i]].  It returns the final [j]
    and [matched]; [None] is the panic of [pattern[j+1]] or [pattern[j+2]]
    out of range. *)
Definition bracket_scan (c : ascii) (pattern : gostring) (j0 : nat) (matched0 : bool)
  : option (nat * bool) :=
  match
    for_each (fun j matched =>
        if bool_decide (pattern !! j = Some "]"%char) then Return (Some (j, matched))
        else if (matched : bool) then Continue matched
        else
          match pattern !! (j + 1) with
          | None => Return None
          | Some d =>
              if byte_eqb d "-" then
                match pattern !! (j + 2) with
                | None => Return None
                | Some e =>
                    let in_range :=
                      if negb (byte_eqb e "]")
                      then byte_leb (pattern !!! j) c && byte_leb c e
                      else false in
                    Continue (in_range || byte_eqb c (pattern !!! j))
                end
              else Continue (byte_eqb c (pattern !!! j))
          end)
      (seq j0 (length pattern - j0)) matched0
  with
  | Return r => r
  | Continue matched => Some (length pattern, matched)
  end.

(** [stringMatch]; [None] is a run-time panic.  The [break] of the bracket
    case leaves the [switch], so the loop goes on with the next [i]. *)
Fixpoint stringMatch_rec (n : nat) (str pattern : gostring) : option bool :=
  match
    for_each (fun i j =>
        if length pattern <=? j then Return (Some false)
        else
          let c := pattern !!! j in
          let si := str !!! i in
          if byte_eqb c "?" then Continue (j + 1)
          else if byte_eqb c "*" then
            Return
              match n with
              | 0 => Some false
              | S n' =>
                  match
                    for_each (fun k (_ : unit) =>
                        match stringMatch_rec n' (drop k str) (drop (j + 1) pattern) with
                        | None => Return None
                        | Some true => Return (Some true)
                        | Some false => Continue tt
                        end)
                      (descending i (length str + 1)) tt
                  with
                  | Return r => r
                  | Continue _ => Some false
                  end
              end
          else if byte_eqb c "[" then
            let prevJ := j in
            let j := j + 1 in
            match pattern !! j with
            | None => Return None
            | Some d =>
                let '(negate, matched, j) :=
                  if byte_eqb d "!" then (true, false, j + 1)
                  else if byte_eqb d "]" then (false, byte_eqb si "]", j + 1)
                  else (false, false, j) in
                match bracket_scan si pattern j matched with
                | None => Return None
                | Some (j, matched) =>
                    if j =? length pattern then
                      if negb (byte_eqb si (pattern !!! prevJ)) then Return (Some false)
                      else Continue (prevJ + 1)
                    else
                      let j := j + 1 in
                      if Bool.eqb matched negate then Return (Some false)
                      else Continue j
                end
            end
          else
            let j := if byte_eqb c "\" then j + 1 else j in
            match pattern !! j with
            | None => Return None
            | Some c' =>
                if negb (byte_eqb si c') then Return (Some false) else Continue (j + 1)
            end)
      (seq 0 (length str)) 0
  with
  | Return r => r
  | Continue j =>
      if (Z.of_nat j <? Z.of_nat (length pattern) - 1)%Z then Some false else Some true
  end.

Definition stringMatch (str pattern : gostring) : option bool :=
  stringMatch_rec (length pattern) str pattern.

Record GitIgnore : Type := mkGitIgnore {
  Rules : list Rule;
  pathComponentsBuf : list gostring
}.

(** [createRule] with [strings.Split] for the components. *)
Definition createRule (pattern : gostring) : option Rule :=
  c ← pattern !! 0;
  let '(negate, pattern) :=
    if byte_eqb c "!" then (true, drop 1 pattern) else (false, pattern) in
  c ← pattern !! 0;
  let '(relative, pattern) :=
    if byte_eqb c "/" then (true, drop 1 pattern) else (false, pattern) in
  c ← pattern !! 0;
  let pattern := if byte_eqb c "\" then drop 1 pattern else pattern in
  c ← last pattern;
  let onlyDirectory := byte_eqb c "/" in
  let components := Split pattern "/" in
  Some {| Components := components;
          Negate := negate;
          OnlyDirectory := onlyDirectory;
          Relative := relative || (1 <? length components) |}.

Definition CompileIgnoreLines (patterns : list gostring) : option GitIgnore :=
  match
    for_each (fun pattern rules =>
        let pattern := Trim pattern whitespace in
        if bool_decide (pattern = []) || bool_decide (pattern !! 0 = Some "#"%char)
        then Continue rules
        else
          match createRule pattern with
          | Some rule => Continue (rules ++ [rule])
          | None => Return tt
          end)
      patterns []
  with
  | Return _ => None
  | Continue rules =>
      Some {| Rules := rules; pathComponentsBuf := replicate 2048 [] |}
  end.

(** [CompileIgnoreFile] returns [nil] and the error when the read failed. *)
Definition CompileIgnoreFile {E : Type} (read : ReadFile_result E)
  : option (option GitIgnore * option E) :=
  let '(lines, err) := read in
  match err with
  | Some e => Some (None, Some e)
  | None =>
      g ← CompileIgnoreLines (Split lines "010");
      Some (Some g, None)
  end.

(** [mySplit] of the revision writes into the buffer of the caller.  The
    state of the loop is the buffer, [idx] and [l]; a write at
    [idx = len(pathComponentsBuf)] panics.  The loop stops before
    [r = len(s)] and the last component is written after it.  The result is
    the buffer after the writes and the components [pathComponentsBuf[:idx]]. *)
Definition mySplit_step (s : gostring) (sep : ascii) (r : nat)
    (st : list gostring * nat * nat) : flow unit _ :=
  let '(buf, idx, l) := st in
  if bool_decide (s !! r = Some sep) then
    if l <? r then
      if idx <? length buf
      then Continue (<[idx := slice s l r]> buf, idx + 1, r + 1)
      else Return tt
    else Continue (buf, idx, r + 1)
  else Continue (buf, idx, l).

Definition mySplit (s : gostring) (sep : ascii) (pathComponentsBuf : list gostring)
  : option (list gostring * list gostring) :=
  match for_each (mySplit_step s sep) (seq 0 (length s)) (pathComponentsBuf, 0, 0) with
  | Return _ => None
  | Continue (buf, idx, l) =>
      let r := length s in
      if l <? r then
        if idx <? length buf
        then let buf := <[idx := slice s l r]> buf in Some (buf, take (idx + 1) buf)
        else None
      else Some (buf, take idx buf)
  end.

(** [matchComponents] of the revision: no [onlyDirectory] parameter, and a
    panic of [stringMatch] goes through. *)
Fixpoint matchComponents_rec (n : nat) (path components : list gostring)
  : option (bool * bool) :=
  match
    for_each (fun i (_ : unit) =>
        if length path <=? i then Return (Some (false, false))
        else if string_eqb (components !!! i) (go "**") then
          Return
            match n with
            | 0 => Some (false, false)
            | S n' =>
                match
                  for_each (fun j (_ : unit) =>
                      match matchComponents_rec n' (drop j path) (drop (i + 1) components) with
                      | None => Return None
                      | Some (matched, final) =>
                          if matched then Return (Some (true, final)) else Continue tt
                      end)
                    (descending i (length path)) tt
                with
                | Return r => r
                | Continue _ => Some (false, false)
                end
            end
        else
          match stringMatch (path !!! i) (components !!! i) with
          | None => Return None
          | Some false => Return (Some (false, false))
          | Some true => Continue tt
          end)
      (seq 0 (length components)) tt
  with
  | Return r => r
  | Continue _ => Some (true, length components =? length path)
  end.

Definition matchComponents (path components : list gostring) : option (bool * bool) :=
  matchComponents_rec (length components) path components.

(** [Rule.matchesPath]: the verdict and the buffer as the call leaves it. *)
Definition matchesPath (r : Rule) (path : gostring) (buf : list gostring)
  : option (bool * list gostring) :=
  let hasSuffix := HasSuffix_slash path in
  '(buf, pathComponents) ← mySplit path "/" buf;
  if negb (Relative r) then
    match
      for_each (fun j (_ : unit) =>
          match matchComponents (drop j pathComponents) (Components r) with
          | None => Return None
          | Some (matched, final) =>
              if matched then
                Return (Some (negb (OnlyDirectory r)
                              || OnlyDirectory r && (negb final || final && hasSuffix)))
              else Continue tt
          end)
        (descending 0 (length pathComponents)) tt
    with
    | Return None => None
    | Return (Some b) => Some (b, buf)
    | Continue _ => Some (false, buf)
    end
  else
    '(matched, final) ← matchComponents pathComponents (Components r);
    Some (matched
          && (negb (OnlyDirectory r)
              || OnlyDirectory r && (negb final || final && hasSuffix)), buf).

(** [GitIgnore.MatchesPath]: every rule splits the path into the buffer of
    the set again; the result is the verdict and the set with its buffer as
    the query leaves it. *)
Definition MatchesPath (os : GOOS) (g : GitIgnore) (path : gostring)
  : option (bool * GitIgnore) :=
  let path := ToSlash os path in
  match
    for_each (fun rule '(matched, buf) =>
        match matchesPath rule path buf with
        | None => Return tt
        | Some (true, buf) =>
            if negb (Negate rule) then Continue (true, buf) else Continue (false, buf)
        | Some (false, buf) => Continue (matched, buf)
        end)
      (Rules g) (false, pathComponentsBuf g)
  with
  | Return _ => None
  | Continue (matched, buf) =>
      Some (matched, {| Rules := Rules g; pathComponentsBuf := buf |})
  end.

End Revised.

(** ** Specification-level vocabulary *)

(** The non-empty fields of a string between separators: what the tokenizer
    is meant to produce.  [cur] is the field being read. *)
Definition flush (cur : gostring) : list gostring :=
  match cur with
  | [] => []
  | _ => [cur]
  end.

Fixpoint fields_from (cur s : gostring) (sep : ascii) : list gostring :=
  match s with
  | [] => flush cur
  | c :: s' =>
      if byte_eqb c sep then flush cur ++ fields_from [] s' sep
      else fields_from (cur ++ [c]) s' sep
  end.

Definition fields (s : gostring) (sep : ascii) : list gostring := fields_from [] s sep.

(** The non-empty suffixes of a component sequence, the full sequence first
    and the single last component last. *)
Fixpoint nonempty_tails {A : Type} (l : list A) : list (list A) :=
  match l with
  | [] => []
  | _ :: l' => l :: nonempty_tails l'
  end.

Definition suffixes_longest_first {A : Type} (l : list A) : list (list A) :=
  nonempty_tails l.

Definition suffixes_shortest_first {A : Type} (l : list A) : list (list A) :=
  rev (nonempty_tails l).

(** The directory-only policy on a [(matched, consumedWholePath)] result. *)
Definition directory_policy (onlyDirectory hasTrailingSeparator : bool)
    (res : bool * bool) : bool :=
  let '(matched, consumedWholePath) := res in
  if onlyDirectory then matched && (negb consumedWholePath || hasTrailingSeparator)
  else matched.

(** Rule matching of a non-anchored rule described as a search: the first
    suffix, in the given order, on which the component-sequence matcher
    succeeds decides through the directory-only policy; no suffix, no match. *)
Definition Rule_Match_by_suffixes
    (order : list gostring → list (list gostring)) (r : Rule) (path : gostring)
  : option bool :=
  pathComponents ← mySplit path "/";
  Some
    match
      find (fun suffix => (matchComponents suffix (Components r) (OnlyDirectory r)).1)
        (order pathComponents)
    with
    | Some suffix =>
        directory_policy (OnlyDirectory r) (HasSuffix_slash path)
          (matchComponents suffix (Components r) (OnlyDirectory r))
    | None => false
    end.

(** All suffixes of a string, the empty one included. *)
Fixpoint tails {A : Type} (l : list A) : list (list A) :=
  l :: match l with
       | [] => []
       | _ :: l' => tails l'
       end.

(** What [stringMatch] of goignore.go computes, by recursion on the
    pattern: [?] takes one byte, [*] takes any number of bytes, any other
    byte takes itself, and when the text is exhausted at most one pattern
    byte, of any kind, may remain. *)
Fixpoint glob (pattern str : gostring) : bool :=
  match pattern with
  | [] => bool_decide (str = [])
  | p :: pattern' =>
      match str with
      | [] => bool_decide (pattern' = [])
      | c :: str' =>
          if byte_eqb p "?" then glob pattern' str'
          else if byte_eqb p "*" then existsb (glob pattern') (tails str)
          else if byte_eqb c p then glob pattern' str'
          else false
      end
  end.

(** A pattern without [?] and [*]. *)
Definition wildcard_free (pattern : gostring) : Prop :=
  Forall (fun c => c ≠ "?"%char ∧ c ≠ "*"%char) pattern.

(** Whether a rule accepts a path, and the step of the verdict fold. *)
Definition rule_accepts (path : gostring) (rule : Rule) : bool :=
  bool_decide (Rule_Match rule path = Some true).

Definition verdict_step (path : gostring) (ignored : bool) (rule : Rule) : bool :=
  if rule_accepts path rule then negb (Negate rule) else ignored.

(** Compiling lines and querying one path, as a client does. *)
Definition compile_and_match (os : GOOS) (lines : list string) (path : string)
  : option bool :=
  g ← CompileIgnoreLines (map go lines);
  Gitignore_Match os g (go path).

(** The rule of the line [foo/]. *)
Definition rule_foo_dir : Rule :=
  {| Components := [go "foo"]; Negate := false; OnlyDirectory := true; Relative := false |}.

(** A path of [n] components, [a/a/.../a/]. *)
Definition deep_path (n : nat) : gostring := concat (replicate n (go "a/")).

(** Components joined by one separator each. *)
Fixpoint join (sep : ascii) (comps : list gostring) : gostring :=
  match comps with
  | [] => []
  | c :: rest =>
      match rest with
      | [] => c
      | _ => c ++ sep :: join sep rest
      end
  end.

(** A path component: not empty and without the separator. *)
Definition component (sep : ascii) (c : gostring) : Prop := c ≠ [] ∧ sep ∉ c.

(** What [matchComponents] computes, by recursion on the pattern
    components: [**] stands for the first non-empty suffix of the path, the
    shortest first, that the rest of the pattern matches; any other
    component must accept the path component at its position; the second
    result tells whether the whole path was consumed. *)
Fixpoint match_seq (components path : list gostring) : bool * bool :=
  match components with
  | [] => (true, bool_decide (path = []))
  | c :: components' =>
      match path with
      | [] => (false, false)
      | p :: path' =>
          if string_eqb c (go "**") then
            match
              find (fun suffix => (match_seq components' suffix).1)
                (suffixes_shortest_first path)
            with
            | Some suffix => (true, (match_seq components' suffix).2)
            | None => (false, false)
            end
          else if stringMatch p c then match_seq components' path'
          else (false, false)
      end
  end.

(** A path component accepted by a pattern component. *)
Definition accepts (p c : gostring) : Prop := stringMatch p c = true.

(** The verdict of a rule on the components of a path and its
    trailing-separator flag: an anchored rule matches the whole sequence, a
    non-anchored rule the first matching suffix, the shortest first; the
    directory-only policy decides on the result. *)
Definition rule_verdict (r : Rule) (comps : list gostring) (hasSuffix : bool) : bool :=
  if Relative r then
    directory_policy (OnlyDirectory r) hasSuffix (match_seq (Components r) comps)
  else
    match
      find (fun suffix => (match_seq (Components r) suffix).1)
        (suffixes_shortest_first comps)
    with
    | Some suffix =>
        directory_policy (OnlyDirectory r) hasSuffix (match_seq (Components r) suffix)
    | None => false
    end.

(** A trimmed line that is compiled: not blank and not a comment. *)
Definition rule_line (pattern : gostring) : bool :=
  negb (bool_decide (pattern = []) || bool_decide (pattern !! 0 = Some "#"%char)).

(** A rule with its negation flag, or its anchor flag, replaced. *)
Definition with_Negate (b : bool) (r : Rule) : Rule :=
  {| Components := Components r; Negate := b;
     OnlyDirectory := OnlyDirectory r; Relative := Relative r |}.

Definition with_Relative (b : bool) (r : Rule) : Rule :=
  {| Components := Components r; Negate := Negate r;
     OnlyDirectory := OnlyDirectory r; Relative := b |}.

(** The rule of a pattern text without markers in front. *)
Definition plain_rule (pattern : gostring) : Rule :=
  {| Components := fields pattern "/";
     Negate := false;
     OnlyDirectory := HasSuffix_slash pattern;
     Relative := 1 <? length (fields pattern "/") |}.

(** [createRule] once the markers are read: the directory-only flag, the
    components and the record. *)
Definition createRule_tail (negate relative : bool) (pattern : gostring) : option Rule :=
  c ← last pattern;
  components ← mySplit pattern "/";
  Some {| Components := components; Negate := negate;
          OnlyDirectory := byte_eqb c "/";
          Relative := relative || (1 <? length components) |}.

(** A pattern without the bytes that only the revision reads specially:
    the opening bracket and the backslash. *)
Definition bracket_free (pattern : gostring) : Prop :=
  Forall (fun c => c ≠ "["%char ∧ c ≠ "\"%char) pattern.

(** The part of the revision's [matchesPath] that follows the split: the
    verdict of a rule on the components and the trailing-separator flag, or
    the panic of a segment match. *)
Definition revised_verdict (r : Rule) (pathComponents : list gostring) (hasSuffix : bool)
  : option bool :=
  if negb (Relative r) then
    match
      for_each (fun j (_ : unit) =>
          match Revised.matchComponents (drop j pathComponents) (Components r) with
          | None => Return None
          | Some (matched, final) =>
              if matched then
                Return (Some (negb (OnlyDirectory r)
                              || OnlyDirectory r && (negb final || final && hasSuffix)))
              else Continue tt
          end)
        (descending 0 (length pathComponents)) tt
    with
    | Return r => r
    | Continue _ => Some false
    end
  else
    '(matched, final) ← Revised.matchComponents pathComponents (Components r);
    Some (matched
          && (negb (OnlyDirectory r)
              || OnlyDirectory r && (negb final || final && hasSuffix))).

(** * Properties *)

(** ** Loops *)

Section for_each_facts.
Context {I R S : Type}.
Implicit Types (body : I → S → flow R S) (idxs : list I).

Lemma for_each_cons body i idxs s :
  for_each body (i :: idxs) s =
  match body i s with
  | Return r => Return r
  | Continue s' => for_each body idxs s'
  end.
Proof. done. Qed.

Lemma for_each_ext_in body1 body2 idxs s :
  (∀ i s', i ∈ idxs → body1 i s' = body2 i s') →
  for_each body1 idxs s = for_each body2 idxs s.
Proof.
  revert s. induction idxs as [|i idxs IH]; intros s Hext; simpl; [done|].
  rewrite (Hext i s) by left.
  destruct (body2 i s); [done|].
  apply IH. intros j s' Hj. apply Hext. by right.
Qed.

Lemma for_each_ext body1 body2 idxs s :
  (∀ i s', body1 i s' = body2 i s') →
  for_each body1 idxs s = for_each body2 idxs s.
Proof. intros Hext. apply for_each_ext_in. intros; apply Hext. Qed.

End for_each_facts.

(** A stateless loop that returns at the first index passing a test is a
    [find] over the values visited. *)
Lemma for_each_first {I A R : Type} (f : I → A) (test : A → bool) (ret : A → R) idxs :
  for_each (fun i (_ : unit) => if test (f i) then Return (ret (f i)) else Continue tt)
    idxs tt =
  match find test (map f idxs) with
  | Some a => Return (ret a)
  | None => Continue tt
  end.
Proof.
  induction idxs as [|i idxs IH]; simpl; [done|].
  destruct (test (f i)); [done | apply IH].
Qed.

Lemma existsb_rev {A : Type} (f : A → bool) (l : list A) :
  existsb f (rev l) = existsb f l.
Proof.
  induction l as [|x l IH]; simpl; [done|].
  rewrite existsb_app, IH. simpl. rewrite orb_false_r. apply orb_comm.
Qed.

Lemma existsb_map {A B : Type} (f : B → bool) (g : A → B) (l : list A) :
  existsb f (map g l) = existsb (fun x => f (g x)) l.
Proof. induction l as [|x l IH]; simpl; [done|]. by rewrite IH. Qed.

Lemma existsb_ext {A : Type} (f g : A → bool) (l : list A) :
  (∀ x, f x = g x) → existsb f l = existsb g l.
Proof. intros Hfg. induction l as [|x l IH]; simpl; [done|]. by rewrite Hfg, IH. Qed.

(** ** Slices and suffixes *)

Lemma slice_nil {A : Type} (s : list A) l r : r ≤ l → slice s l r = [].
Proof. intros. unfold slice. replace (r - l) with 0 by lia. apply take_0. Qed.

Lemma slice_snoc {A : Type} (s : list A) l r c :
  l ≤ r → s !! r = Some c → slice s l (S r) = slice s l r ++ [c].
Proof.
  intros Hlr Hc. unfold slice.
  replace (S r - l) with (S (r - l)) by lia.
  apply take_S_r. rewrite lookup_drop. by replace (l + (r - l)) with r by lia.
Qed.

Lemma flush_slice (s : gostring) l r :
  l ≤ r ≤ length s →
  flush (slice s l r) = if l <? r then [slice s l r] else [].
Proof.
  intros Hlr. destruct (Nat.ltb_spec l r).
  - assert (length (slice s l r) = r - l) as Hlen.
    { unfold slice. rewrite length_take, length_drop. lia. }
    destruct (slice s l r); [simpl in Hlen; lia|done].
  - by rewrite slice_nil by lia.
Qed.

Lemma take_insert_snoc {A : Type} (buf : list A) idx x :
  idx < length buf → take (idx + 1) (<[idx:=x]> buf) = take idx buf ++ [x].
Proof.
  intros Hidx. rewrite Nat.add_1_r.
  erewrite take_S_r by (by apply list_lookup_insert_eq).
  by rewrite take_insert_ge by lia.
Qed.

Lemma drops_nonempty_tails {A : Type} (l : list A) :
  map (fun j => drop j l) (seq 0 (length l)) = nonempty_tails l.
Proof.
  induction l as [|x l IH]; simpl; [done|].
  f_equal. rewrite <- seq_shift, map_map. simpl. apply IH.
Qed.

Lemma drops_descending {A : Type} (l : list A) :
  map (fun j => drop j l) (descending 0 (length l)) = suffixes_shortest_first l.
Proof.
  unfold descending, suffixes_shortest_first.
  rewrite Nat.sub_0_r, map_rev. f_equal. apply drops_nonempty_tails.
Qed.

Lemma drops_tails {A : Type} (l : list A) :
  map (fun k => drop k l) (seq 0 (length l + 1)) = tails l.
Proof.
  induction l as [|x l IH]; simpl; [done|].
  f_equal. rewrite <- seq_shift, map_map. simpl. apply IH.
Qed.

Lemma drops_tails_from {A : Type} (l : list A) (i : nat) :
  i ≤ length l →
  map (fun k => drop k l) (seq i (length l + 1 - i)) = tails (drop i l).
Proof.
  intros Hi. rewrite <- (drops_tails (drop i l)), length_drop.
  replace (length l - i + 1) with (length l + 1 - i) by lia.
  replace i with (i + 0) at 1 by lia.
  rewrite <- fmap_add_seq, <- list_fmap_compose.
  apply map_ext. intros k. simpl. by rewrite drop_drop.
Qed.

(** ** The tokenizer *)

(** The loop of [mySplit] from index [r], with the field [s[l:r]] being
    read: it appends the remaining fields to the [idx] components written so
    far, and panics when they do not fit in the buffer. *)
Lemma mySplit_loop_fields (s : gostring) (sep : ascii) :
  ∀ k r buf idx l, r + k = length s → l ≤ r → idx ≤ length buf →
    mySplit_end (for_each (mySplit_step s sep) (seq r (S k)) (buf, idx, l)) =
    let fs := fields_from (slice s l r) (drop r s) sep in
    if idx + length fs <=? length buf then Some (take idx buf ++ fs) else None.
Proof.
  induction k as [|k IH]; intros r buf idx l Hrk Hlr Hidx;
    rewrite <- cons_seq, for_each_cons; unfold mySplit_step at 1.
  - assert (r = length s) as -> by lia.
    rewrite Nat.eqb_refl, drop_all. cbn [orb fields_from for_each seq].
    cbn zeta. rewrite flush_slice by lia.
    destruct (l <? length s); cbn [mySplit_end length].
    + destruct (Nat.ltb_spec idx (length buf)).
      * destruct (Nat.leb_spec (idx + 1) (length buf)); [|lia].
        cbn [mySplit_end]. by rewrite take_insert_snoc.
      * destruct (Nat.leb_spec (idx + 1) (length buf)); [lia|done].
    + destruct (Nat.leb_spec (idx + 0) (length buf)); [|lia].
      by rewrite app_nil_r.
  - destruct (lookup_lt_is_Some_2 s r) as [c Hc]; [lia|].
    rewrite (drop_S s c r Hc), Hc. cbn [fields_from].
    replace (r =? length s) with false by (symmetry; apply Nat.eqb_neq; lia).
    cbn [orb]. unfold byte_eqb.
    destruct (Ascii.eqb_spec c sep) as [->|Hne].
    + rewrite bool_decide_eq_true_2 by done.
      rewrite flush_slice by lia.
      destruct (l <? r).
      * destruct (Nat.ltb_spec idx (length buf)).
        -- rewrite Nat.add_1_r. rewrite IH by (rewrite ?length_insert; lia).
           rewrite slice_nil by lia. rewrite length_insert.
           cbn zeta. cbn [length app].
           replace (S idx + length (fields_from [] (drop (S r) s) sep))
             with (idx + S (length (fields_from [] (drop (S r) s) sep))) by lia.
           destruct (_ <=? _); [|done].
           rewrite <- Nat.add_1_r, take_insert_snoc by done.
           by rewrite <- app_assoc.
        -- cbn [mySplit_end]. cbn zeta. cbn [length app].
           destruct (Nat.leb_spec (idx + S (length (fields_from [] (drop (S r) s) sep)))
                       (length buf)); [lia|done].
      * rewrite Nat.add_1_r. rewrite IH by lia.
        by rewrite slice_nil by lia.
    + rewrite bool_decide_eq_false_2 by congruence.
      rewrite IH by lia. by rewrite (slice_snoc s l r c).
Qed.

(** [mySplit] returns the non-empty fields when there are at most 1024 of
    them, and panics otherwise. *)
Lemma mySplit_fields (s : gostring) (sep : ascii) :
  mySplit s sep =
  if length (fields s sep) <=? 1024 then Some (fields s sep) else None.
Proof.
  unfold mySplit.
  rewrite Nat.add_1_r, mySplit_loop_fields by (rewrite ?length_replicate; lia).
  rewrite slice_nil by lia. by rewrite drop_0, length_replicate.
Qed.

Lemma mySplit_Some_fields (s : gostring) (sep : ascii) comps :
  mySplit s sep = Some comps → comps = fields s sep ∧ length comps ≤ 1024.
Proof.
  rewrite mySplit_fields.
  destruct (Nat.leb_spec (length (fields s sep)) 1024); [|done].
  by intros [= <-].
Qed.

Lemma fields_from_trailing_sep (cur s : gostring) (sep : ascii) :
  fields_from cur (s ++ [sep]) sep = fields_from cur s sep.
Proof.
  revert cur. induction s as [|c s IH]; intros cur; simpl.
  - unfold byte_eqb. rewrite Ascii.eqb_refl. apply app_nil_r.
  - destruct (byte_eqb c sep); by rewrite IH.
Qed.

(** A trailing separator adds no component. *)
Lemma mySplit_trailing_sep (s : gostring) (sep : ascii) :
  mySplit (s ++ [sep]) sep = mySplit s sep.
Proof.
  rewrite !mySplit_fields. unfold fields. by rewrite fields_from_trailing_sep.
Qed.

(** ** The segment matcher *)

(** The loop of [stringMatch] from the state [(i, j)] computes [glob] on
    what is left of the pattern and of the text. *)
Lemma stringMatch_loop_glob (recur : gostring → gostring → bool) (str pattern : gostring) :
  (∀ s p, length p < length pattern → recur s p = glob p s) →
  ∀ k i j, i + k = length str →
    stringMatch_end pattern
      (for_each (stringMatch_body recur str pattern) (seq i k) j)
    = glob (drop j pattern) (drop i str).
Proof.
  intros Hrecur. induction k as [|k IH]; intros i j Hik.
  - simpl. rewrite (drop_ge str) by lia.
    destruct (drop j pattern) as [|p pattern'] eqn:Hdrop.
    + apply drop_nil_inv in Hdrop.
      destruct (Z.ltb_spec (Z.of_nat j) (Z.of_nat (length pattern) - 1)); [lia|done].
    + assert (length (p :: pattern') = length pattern - j) as Hlen
        by (by rewrite <- Hdrop, length_drop).
      simpl in Hlen.
      destruct (Z.ltb_spec (Z.of_nat j) (Z.of_nat (length pattern) - 1)).
      * cbn [glob]. rewrite bool_decide_eq_false_2; [done|].
        intros ->. simpl in Hlen. lia.
      * cbn [glob]. rewrite bool_decide_eq_true_2; [done|].
        destruct pattern'; [done|]. simpl in Hlen. lia.
  - destruct (lookup_lt_is_Some_2 str i) as [c Hc]; [lia|].
    rewrite (drop_S str c i Hc).
    rewrite <- cons_seq, for_each_cons. unfold stringMatch_body at 1.
    destruct (Nat.leb_spec (length pattern) j) as [Hj|Hj].
    { by rewrite (drop_ge pattern). }
    destruct (lookup_lt_is_Some_2 pattern j) as [p Hp]; [done|].
    rewrite Hp, (drop_S pattern p j Hp). cbn [glob].
    destruct (byte_eqb p "?").
    { rewrite <- (Nat.add_1_r j). apply IH. lia. }
    destruct (byte_eqb p "*").
    { cbn [stringMatch_end]. unfold descending. rewrite existsb_rev.
      rewrite <- (drop_S str c i Hc), <- drops_tails_from by lia.
      rewrite existsb_map. apply existsb_ext. intros k'.
      rewrite (Nat.add_1_r j). apply Hrecur. rewrite length_drop. lia. }
    rewrite Hc. unfold byte_eqb.
    destruct (Ascii.eqb_spec c p) as [->|Hne].
    + rewrite bool_decide_eq_true_2 by done.
      rewrite <- (Nat.add_1_r j). apply IH. lia.
    + by rewrite bool_decide_eq_false_2 by congruence.
Qed.

(** The bound on the depth of recursion is never reached. *)
Lemma stringMatch_rec_glob (n : nat) :
  ∀ str pattern, length pattern ≤ n → stringMatch_rec n str pattern = glob pattern str.
Proof.
  induction n as [|n IH]; intros str pattern Hn; cbn [stringMatch_rec].
  - by rewrite (stringMatch_loop_glob _ str pattern) by (intros; lia || done).
  - rewrite (stringMatch_loop_glob _ str pattern); [done| |done].
    intros s p Hp. apply IH. lia.
Qed.

Lemma stringMatch_glob (str pattern : gostring) :
  stringMatch str pattern = glob pattern str.
Proof. by apply stringMatch_rec_glob. Qed.

(** A wildcard-free pattern accepts itself. *)
Lemma stringMatch_literal_refl (pattern : gostring) :
  wildcard_free pattern → stringMatch pattern pattern = true.
Proof.
  rewrite stringMatch_glob.
  induction 1 as [|c pattern [Hq Hs] _ IH]; [done|].
  cbn [glob]. unfold byte_eqb.
  destruct (Ascii.eqb_spec c "?"); [done|].
  destruct (Ascii.eqb_spec c "*"); [done|].
  by rewrite Ascii.eqb_refl.
Qed.

(** It also accepts itself without its last byte, whatever that byte is:
    the check after the loop lets one pattern byte go unmatched. *)
Lemma stringMatch_literal_truncated (str : gostring) (c : ascii) :
  wildcard_free str → stringMatch str (str ++ [c]) = true.
Proof.
  rewrite stringMatch_glob.
  induction 1 as [|d str [Hq Hs] _ IH]; [done|].
  cbn [app glob]. unfold byte_eqb.
  destruct (Ascii.eqb_spec d "?"); [done|].
  destruct (Ascii.eqb_spec d "*"); [done|].
  by rewrite Ascii.eqb_refl.
Qed.

(** ** The rule matcher *)

(** The return expression of [Rule.Match] is the directory-only policy. *)
Lemma return_expr_policy (od final hasSuffix : bool) :
  negb od || od && (negb final || final && hasSuffix) =
  directory_policy od hasSuffix (true, final).
Proof. by destruct od, final, hasSuffix. Qed.

(** A rule matcher answers whenever the tokenizer does. *)
Lemma Rule_Match_is_Some (r : Rule) (path : gostring) comps :
  mySplit path "/" = Some comps → is_Some (Rule_Match r path).
Proof.
  intros Hsplit. unfold Rule_Match. rewrite Hsplit. simpl.
  destruct (negb (Relative r)).
  - destruct (for_each _ _ _); eauto.
  - destruct (matchComponents _ _ _); eauto.
Qed.

(** Without the directory-only flag, a rule sees a path only through its
    components. *)
Lemma Rule_Match_components_only (r : Rule) (p q : gostring) :
  OnlyDirectory r = false →
  mySplit p "/" = mySplit q "/" →
  Rule_Match r p = Rule_Match r q.
Proof.
  intros Hod Hsplit. unfold Rule_Match. rewrite Hsplit, Hod.
  destruct (mySplit q "/") as [comps|]; [|done]. simpl.
  destruct (negb (Relative r)); [|by destruct (matchComponents _ _ _) as [[] ?]].
  reflexivity.
Qed.

Lemma rule_foo_dir_compiled : createRule (go "foo/") = Some rule_foo_dir.
Proof. vm_compute. reflexivity. Qed.

(** ** The ignore set *)

Lemma ToSlash_app (os : GOOS) (p q : gostring) :
  ToSlash os (p ++ q) = ToSlash os p ++ ToSlash os q.
Proof. destruct os; unfold ToSlash; simpl; [done | apply map_app]. Qed.

Lemma Gitignore_Match_fold_from (path : gostring) (rules : list Rule) (ignored : bool) comps :
  mySplit path "/" = Some comps →
  for_each (fun rule matched =>
      match Rule_Match rule path with
      | None => Return tt
      | Some true => if negb (Negate rule) then Continue true else Continue false
      | Some false => Continue matched
      end) rules ignored =
  Continue (fold_left (verdict_step path) rules ignored).
Proof.
  intros Hsplit. revert ignored.
  induction rules as [|rule rules IH]; intros ignored; simpl; [done|].
  unfold verdict_step at 2, rule_accepts.
  destruct (Rule_Match_is_Some rule path comps Hsplit) as [b ->].
  destruct b.
  - rewrite bool_decide_eq_true_2 by done. destruct (Negate rule); apply IH.
  - rewrite bool_decide_eq_false_2 by done. apply IH.
Qed.

(** The search order of [Rule.Match]: when [Relative] is false, the loop
    [for j := len(pathComponents)-1; j >= 0; j--] tries the non-empty suffixes
    of the path's components from the last component alone up to the full
    sequence; the first one on which [matchComponents] succeeds decides
    through the directory-only policy. *)
Lemma Rule_Match_searches_shortest_suffix_first (r : Rule) (path : gostring) :
  Relative r = false →
  Rule_Match r path = Rule_Match_by_suffixes suffixes_shortest_first r path.
Proof.
  intros Hrel. unfold Rule_Match, Rule_Match_by_suffixes. rewrite Hrel.
  destruct (mySplit path "/") as [comps|]; [|done].
  cbn [mbind option_bind negb]. rewrite <- drops_descending.
  set (mc := fun suffix => matchComponents suffix (Components r) (OnlyDirectory r)).
  rewrite (for_each_ext _
    (fun j (_ : unit) =>
       if (mc (drop j comps)).1
       then Return (directory_policy (OnlyDirectory r) (HasSuffix_slash path)
                      (mc (drop j comps)))
       else Continue tt)).
  2:{ intros j []. subst mc. cbn beta.
      destruct (matchComponents _ _ _) as [[] final]; [|done].
      by rewrite return_expr_policy. }
  rewrite (for_each_first (fun j => drop j comps) (fun a => (mc a).1)
             (fun a => directory_policy (OnlyDirectory r) (HasSuffix_slash path) (mc a))).
  by destruct (find _ _).
Qed.

Lemma find_policy_existsb {A : Type} (test : A → bool) (res : A → bool * bool)
    (hasSuffix : bool) (l : list A) :
  (∀ a, test a = (res a).1) →
  match find test l with
  | Some a => directory_policy false hasSuffix (res a)
  | None => false
  end = existsb test l.
Proof.
  intros Htest. induction l as [|a l IH]; simpl; [done|].
  destruct (test a) eqn:Ha; [|apply IH].
  destruct (res a) as [m c] eqn:Hres. specialize (Htest a).
  rewrite Ha, Hres in Htest. simpl in *. done.
Qed.

(** For a rule that is not directory-only the order of the search cannot be
    observed: the rule accepts exactly when some suffix matches. *)
Lemma Rule_Match_by_suffixes_order_irrelevant (r : Rule) (path : gostring) :
  OnlyDirectory r = false →
  Rule_Match_by_suffixes suffixes_longest_first r path =
  Rule_Match_by_suffixes suffixes_shortest_first r path.
Proof.
  intros Hod. unfold Rule_Match_by_suffixes.
  destruct (mySplit path "/") as [comps|]; [|done].
  cbn [mbind option_bind]. rewrite Hod. f_equal.
  rewrite !(find_policy_existsb _ (fun suffix => matchComponents suffix (Components r) false))
    by done.
  unfold suffixes_shortest_first, suffixes_longest_first.
  by rewrite existsb_rev.
Qed.

(** So on rules that are not directory-only [Rule.Match] agrees with the
    search from the longest suffix as well. *)
Lemma Rule_Match_longest_suffix_first_unless_directory_only (r : Rule) (path : gostring) :
  Relative r = false → OnlyDirectory r = false →
  Rule_Match r path = Rule_Match_by_suffixes suffixes_longest_first r path.
Proof.
  intros Hrel Hod.
  rewrite Rule_Match_by_suffixes_order_irrelevant by done.
  by apply Rule_Match_searches_shortest_suffix_first.
Qed.

(** * The claims *)

(** C1: [Gitignore.Match] is a fold over the rules in order starting from
    [false]: a rule that accepts the (slash-normalised) path sets the running
    value to [negb Negate], a rule that does not accept it leaves the value as
    it is whatever its negation flag, and the value after the last rule is
    the result.  The result is produced for every path the tokenizer can
    hold, and on such a path every rule matcher answers. *)
Theorem Gitignore_Match_last_match_wins (os : GOOS) (g : Gitignore) (path : gostring) comps :
  mySplit (ToSlash os path) "/" = Some comps →
  Gitignore_Match os g path =
    Some (fold_left
            (fun ignored rule =>
               if rule_accepts (ToSlash os path) rule then negb (Negate rule) else ignored)
            (Rules g) false)
  ∧ (∀ rule, Rule_Match rule (ToSlash os path) = Some (rule_accepts (ToSlash os path) rule)).
Proof.
  intros Hsplit. split.
  - unfold Gitignore_Match.
    by rewrite (Gitignore_Match_fold_from _ _ _ comps Hsplit).
  - intros rule. unfold rule_accepts.
    destruct (Rule_Match_is_Some rule _ comps Hsplit) as [[] ->].
    + by rewrite bool_decide_eq_true_2.
    + by rewrite bool_decide_eq_false_2.
Qed.

Lemma Gitignore_Match_last_match_wins_witness :
  Gitignore_Match Unix {| Rules := [rule_foo_dir] |} (go "foo/bar") =
    Some (fold_left
            (fun ignored rule =>
               if rule_accepts (ToSlash Unix (go "foo/bar")) rule
               then negb (Negate rule) else ignored)
            [rule_foo_dir] false)
  ∧ (∀ rule, Rule_Match rule (ToSlash Unix (go "foo/bar")) =
             Some (rule_accepts (ToSlash Unix (go "foo/bar")) rule)).
Proof.
  apply (Gitignore_Match_last_match_wins Unix {| Rules := [rule_foo_dir] |}
           (go "foo/bar") [go "foo"; go "bar"]).
  vm_compute. reflexivity.
Defined.

(** C2: the line [!] passes the blank and comment filter and makes
    [createRule] index an empty string, so [CompileIgnoreLines] panics; and a
    path of 1025 components overflows the buffer of [mySplit], so [Match]
    panics on a set that compiled. *)
Theorem compile_and_match_can_panic :
  CompileIgnoreLines [go "!"] = None
  ∧ (∃ g, CompileIgnoreLines [go "a"] = Some g
          ∧ Gitignore_Match Unix g (deep_path 1025) = None).
Proof.
  split; [vm_compute; reflexivity|].
  eexists. split; vm_compute; reflexivity.
Qed.

(** C3 (as amended): for the rule list [/*], [!/foo], [Match("foo")] is
    false and [Match("foo/bar")] is false as well: the negated rule [!/foo]
    accepts the path [foo] and, matching as a prefix, its descendants such as
    [foo/bar], so it re-includes them. *)
Theorem negated_rule_reincludes_descendants (os : GOOS) :
  compile_and_match os ["/*"; "!/foo"]%string "foo" = Some false
  ∧ compile_and_match os ["/*"; "!/foo"]%string "foo/bar" = Some false
  ∧ (∃ rule, createRule (go "!/foo") = Some rule
             ∧ Negate rule = true
             ∧ Rule_Match rule (go "foo/bar") = Some true).
Proof.
  split; [destruct os; vm_compute; reflexivity|].
  split; [destruct os; vm_compute; reflexivity|].
  eexists. split; [vm_compute; reflexivity|]. vm_compute. done.
Qed.

(** C3 as stated fails: [Match("foo/bar")] is not true. *)
Lemma negated_rule_descendant_not_ignored :
  ¬ (compile_and_match Unix ["/*"; "!/foo"]%string "foo" = Some false
     ∧ compile_and_match Unix ["/*"; "!/foo"]%string "foo/bar" = Some true).
Proof. intros [_ H]. vm_compute in H. discriminate H. Qed.

(** C4: when [Relative] is false the code does not try the longest suffix
    first.  For the rule of the line [foo/] (not anchored, directory-only)
    and the path [foo/foo], the search from the full sequence down to the
    last component stops at the full sequence, where [foo] is matched as a
    parent directory, and accepts; [Rule.Match] stops at the last component
    alone, which consumes the whole suffix, and rejects, as the search from
    the shortest suffix does.  So the file [foo] nested in the directory
    [foo] is not matched. *)
Theorem Rule_Match_suffix_order_divergence :
  createRule (go "foo/") = Some rule_foo_dir
  ∧ Relative rule_foo_dir = false
  ∧ mySplit (go "foo/foo") "/" = Some [go "foo"; go "foo"]
  ∧ matchComponents [go "foo"; go "foo"] (Components rule_foo_dir)
      (OnlyDirectory rule_foo_dir) = (true, false)
  ∧ matchComponents [go "foo"] (Components rule_foo_dir)
      (OnlyDirectory rule_foo_dir) = (true, true)
  ∧ Rule_Match_by_suffixes suffixes_longest_first rule_foo_dir (go "foo/foo") = Some true
  ∧ Rule_Match rule_foo_dir (go "foo/foo") = Some false
  ∧ Rule_Match rule_foo_dir (go "foo/foo") =
      Rule_Match_by_suffixes suffixes_shortest_first rule_foo_dir (go "foo/foo")
  ∧ compile_and_match Unix ["foo/"]%string "foo/foo" = Some false.
Proof.
  assert (Hcode := Rule_Match_searches_shortest_suffix_first
                     rule_foo_dir (go "foo/foo") eq_refl).
  repeat split; try exact Hcode; vm_compute; reflexivity.
Qed.

(** C5: the pattern [foo] accepts the path [fo]: when the text is
    exhausted, [stringMatch] fails only if at least two pattern bytes
    remain, so one concrete pattern byte may be left over. *)
Theorem literal_pattern_accepts_shorter_text :
  stringMatch (go "fo") (go "foo") = true
  ∧ compile_and_match Unix ["foo"]%string "fo" = Some true
  ∧ compile_and_match Unix ["foo"]%string "foo" = Some true
  ∧ compile_and_match Unix ["foo"]%string "anything/foo" = Some true.
Proof. vm_compute. done. Qed.

(** C6: for the rule set [foo/], [Match("foo")] is false, [Match("foo/")]
    and [Match("foo/bar")] are true, but [Match("foo/foo")] is false: the
    entry [foo] nested under the directory [foo] is not matched. *)
Theorem directory_rule_misses_nested_same_name :
  compile_and_match Unix ["foo/"]%string "foo" = Some false
  ∧ compile_and_match Unix ["foo/"]%string "foo/" = Some true
  ∧ compile_and_match Unix ["foo/"]%string "foo/bar" = Some true
  ∧ compile_and_match Unix ["foo/"]%string "foo/foo" = Some false.
Proof. vm_compute. done. Qed.

(** C7: in the revision with bracket classes, a terminated bracket
    expression consumes one byte of the text, with ranges and a leading [!],
    but the unterminated brackets [[a] and [[] panic instead of falling back
    to a literal; in goignore.go itself the bracket is always a literal
    byte, so [[a]] does not accept [a]. *)
Theorem bracket_expression_divergence :
  Revised.stringMatch (go "b") (go "[a-c]") = Some true
  ∧ Revised.stringMatch (go "d") (go "[a-c]") = Some false
  ∧ Revised.stringMatch (go "b") (go "[!a]") = Some true
  ∧ Revised.stringMatch (go "bc") (go "[a-c]") = Some false
  ∧ Revised.stringMatch (go "-") (go "[a-c]") = Some true
  ∧ Revised.stringMatch (go "[a") (go "[a") = None
  ∧ Revised.stringMatch (go "[") (go "[") = None
  ∧ stringMatch (go "a") (go "[a]") = false
  ∧ stringMatch (go "[a") (go "[a") = true.
Proof. vm_compute. done. Qed.

(** C8: the line [//] is trimmed, not blank and not a comment, and its
    rule has no component. *)
Theorem slash_only_line_has_no_components :
  Trim (go "//") whitespace = go "//"
  ∧ CompileIgnoreLines [go "//"] =
      Some {| Rules := [ {| Components := []; Negate := false;
                            OnlyDirectory := true; Relative := true |} ] |}.
Proof. vm_compute. done. Qed.

(** C9: when the read fails, [CompileIgnoreFile] of goignore.go returns
    the error together with a set compiled from whatever bytes were read
    (the empty set when there are none); the revision returns no set.  A
    read without error is split on newlines and compiled. *)
Theorem CompileIgnoreFile_returns_set_with_error (E : Type) (err : E) :
  CompileIgnoreFile ([], Some err) = Some (Some {| Rules := [] |}, Some err)
  ∧ (∃ rule, CompileIgnoreFile (go "foo", Some err)
             = Some (Some {| Rules := [rule] |}, Some err))
  ∧ Revised.CompileIgnoreFile (go "foo", Some err) = Some (None, Some err)
  ∧ (∀ bytes : gostring,
       CompileIgnoreFile (bytes, @None E) =
       (g ← CompileIgnoreLines (Split bytes "010"); Some (Some g, None))).
Proof.
  split; [vm_compute; reflexivity|]. split; [|split].
  - eexists. vm_compute. reflexivity.
  - vm_compute. reflexivity.
  - intros bytes. reflexivity.
Qed.

(** C10: when no rule is directory-only, a trailing separator on a query
    path that does not end with one does not change the outcome of
    [Gitignore.Match] (the verdict, or the panic of the tokenizer on a path
    of more than 1024 components). *)
Theorem Gitignore_Match_trailing_separator (os : GOOS) (g : Gitignore) (p : gostring) :
  Forall (fun rule => OnlyDirectory rule = false) (Rules g) →
  last p ≠ Some "/"%char →
  Gitignore_Match os g (p ++ go "/") = Gitignore_Match os g p.
Proof.
  intros Hnodir _. unfold Gitignore_Match.
  rewrite ToSlash_app.
  replace (ToSlash os (go "/")) with ["/"%char] by (by destruct os).
  rewrite (for_each_ext_in _
    (fun rule matched =>
       match Rule_Match rule (ToSlash os p) with
       | None => Return tt
       | Some true => if negb (Negate rule) then Continue true else Continue false
       | Some false => Continue matched
       end)); [done|].
  intros rule matched Hin.
  rewrite Forall_forall in Hnodir.
  rewrite (Rule_Match_components_only rule _ (ToSlash os p)); [done| |].
  - by apply Hnodir.
  - apply mySplit_trailing_sep.
Qed.

Lemma Gitignore_Match_trailing_separator_witness :
  Gitignore_Match Unix {| Rules := [mkRule [go "foo"] false false false;
                                    mkRule [go "bar"] true false true] |}
    (go "a/foo" ++ go "/") =
  Gitignore_Match Unix {| Rules := [mkRule [go "foo"] false false false;
                                    mkRule [go "bar"] true false true] |}
    (go "a/foo").
Proof.
  apply (Gitignore_Match_trailing_separator Unix _ (go "a/foo")).
  - repeat constructor.
  - vm_compute. discriminate.
Defined.

(** * Further properties of the code *)

(** ** The tokenizer *)

Lemma fields_from_components (sep : ascii) (s : gostring) :
  ∀ cur, sep ∉ cur → Forall (component sep) (fields_from cur s sep).
Proof.
  induction s as [|c s IH]; intros cur Hcur; cbn [fields_from].
  - destruct cur; [constructor|]. by repeat constructor.
  - unfold byte_eqb. destruct (Ascii.eqb_spec c sep) as [->|Hne].
    + apply Forall_app. split; [|apply IH; apply not_elem_of_nil].
      destruct cur; [constructor|]. by repeat constructor.
    + apply IH. rewrite elem_of_app, list_elem_of_singleton.
      intros [?|?]; [by apply Hcur | by apply Hne].
Qed.

Lemma fields_from_length (sep : ascii) (s : gostring) :
  ∀ cur, 2 * length (fields_from cur s sep)
         ≤ length s + 1 + (if bool_decide (cur = []) then 0 else 1).
Proof.
  induction s as [|c s IH]; intros cur; cbn [fields_from].
  - destruct cur; simpl; lia.
  - destruct (byte_eqb c sep).
    + rewrite length_app. specialize (IH []). simpl in IH.
      destruct cur; simpl in *; lia.
    + specialize (IH (cur ++ [c])).
      rewrite (bool_decide_eq_false_2 (cur ++ [c] = [])) in IH
        by (by destruct cur).
      simpl. case_bool_decide; lia.
Qed.

Lemma fields_from_app_sep (sep : ascii) (s t : gostring) :
  ∀ cur, fields_from cur (s ++ sep :: t) sep
         = fields_from cur s sep ++ fields_from [] t sep.
Proof.
  induction s as [|c s IH]; intros cur; cbn [app fields_from].
  - unfold byte_eqb. by rewrite Ascii.eqb_refl.
  - destruct (byte_eqb c sep); [|apply IH].
    by rewrite IH, app_assoc.
Qed.

Lemma fields_from_sep_free (sep : ascii) (w s : gostring) :
  sep ∉ w → ∀ cur, fields_from cur (w ++ s) sep = fields_from (cur ++ w) s sep.
Proof.
  induction w as [|c w IH]; intros Hw cur; cbn [app].
  - by rewrite app_nil_r.
  - cbn [fields_from]. unfold byte_eqb.
    destruct (Ascii.eqb_spec c sep) as [->|Hne]; [by destruct Hw; left|].
    rewrite IH by (intros ?; apply Hw; by right).
    by rewrite <- app_assoc.
Qed.

Lemma fields_from_word (sep : ascii) (w : gostring) :
  component sep w → fields_from [] w sep = [w].
Proof.
  intros [Hne Hsep].
  pose proof (fields_from_sep_free sep w [] Hsep []) as H.
  rewrite app_nil_r in H. rewrite H. simpl. by destruct w.
Qed.

Lemma fields_join (sep : ascii) (comps : list gostring) :
  Forall (component sep) comps → fields (join sep comps) sep = comps.
Proof.
  unfold fields.
  induction 1 as [|c rest Hc Hrest IH]; [done|].
  cbn [join]. destruct rest as [|c' rest'].
  - by apply fields_from_word.
  - by rewrite fields_from_app_sep, IH, fields_from_word.
Qed.

(** Components written out are checked by computation. *)
Lemma component_decide (sep : ascii) (c : gostring) :
  bool_decide (c ≠ [] ∧ sep ∉ c) = true → component sep c.
Proof. apply bool_decide_eq_true_1. Qed.

(** X1: [mySplit] returns the non-empty fields between the separators, in
    order, when there are at most 1024 of them, and panics otherwise. *)
Theorem mySplit_returns_fields_or_panics (s : gostring) (sep : ascii) :
  mySplit s sep =
  if length (fields s sep) <=? 1024 then Some (fields s sep) else None.
Proof. apply mySplit_fields. Qed.

(** X2: no component returned by [mySplit] is empty and none contains the
    separator; there are at most 1024 of them. *)
Theorem mySplit_components_well_formed (s : gostring) (sep : ascii) comps :
  mySplit s sep = Some comps →
  Forall (component sep) comps ∧ length comps ≤ 1024.
Proof.
  intros [-> Hlen]%mySplit_Some_fields. split; [|done].
  apply fields_from_components. apply not_elem_of_nil.
Qed.

Lemma mySplit_components_well_formed_witness :
  Forall (component "/") [go "a"; go "b"] ∧ length [go "a"; go "b"] ≤ 1024.
Proof.
  apply (mySplit_components_well_formed (go "//a//b/") "/" [go "a"; go "b"]).
  vm_compute. reflexivity.
Defined.

(** X3: splitting the join of at most 1024 components gives the components
    back. *)
Theorem mySplit_join_round_trip (sep : ascii) (comps : list gostring) :
  Forall (component sep) comps →
  length comps ≤ 1024 →
  mySplit (join sep comps) sep = Some comps.
Proof.
  intros Hcomps Hlen. rewrite mySplit_fields, fields_join by done.
  by destruct (Nat.leb_spec (length comps) 1024); [|lia].
Qed.

Lemma mySplit_join_round_trip_witness :
  mySplit (join "/" [go "src"; go "main.go"]) "/" = Some [go "src"; go "main.go"].
Proof.
  apply (mySplit_join_round_trip "/" [go "src"; go "main.go"]).
  - repeat (constructor; [apply component_decide; vm_compute; reflexivity|]).
    constructor.
  - simpl. lia.
Defined.

(** X4: a string of at most 2047 bytes never overflows the buffer: [mySplit]
    returns. *)
Theorem mySplit_short_string_returns (s : gostring) (sep : ascii) :
  length s ≤ 2047 → is_Some (mySplit s sep).
Proof.
  intros Hlen. rewrite mySplit_fields.
  pose proof (fields_from_length sep s []) as Hbound. simpl in Hbound.
  fold (fields s sep) in Hbound.
  destruct (Nat.leb_spec (length (fields s sep)) 1024); [eauto|lia].
Qed.

Lemma mySplit_short_string_returns_witness : is_Some (mySplit (go "a/b/c") "/").
Proof. apply (mySplit_short_string_returns (go "a/b/c") "/"). simpl. lia. Defined.

(** X5: the components of [s], a separator and [t] are the components of
    [s] followed by those of [t], as long as they fit in the buffer. *)
Theorem mySplit_app_sep (s t : gostring) (sep : ascii) a b :
  mySplit s sep = Some a →
  mySplit t sep = Some b →
  length a + length b ≤ 1024 →
  mySplit (s ++ sep :: t) sep = Some (a ++ b).
Proof.
  intros [-> _]%mySplit_Some_fields [-> _]%mySplit_Some_fields Hlen.
  rewrite mySplit_fields. unfold fields in *.
  rewrite fields_from_app_sep, length_app.
  by destruct (Nat.leb_spec (length (fields_from [] s sep)
                             + length (fields_from [] t sep)) 1024); [|lia].
Qed.

Lemma mySplit_app_sep_witness :
  mySplit (go "a//b" ++ "/"%char :: go "c/") "/" = Some ([go "a"; go "b"] ++ [go "c"]).
Proof.
  apply (mySplit_app_sep (go "a//b") (go "c/") "/" [go "a"; go "b"] [go "c"]).
  - vm_compute. reflexivity.
  - vm_compute. reflexivity.
  - simpl. lia.
Defined.

(** ** The segment matcher *)

Lemma glob_literal_iff (pattern : gostring) :
  wildcard_free pattern →
  ∀ str, glob pattern str = true ↔ str = pattern ∨ ∃ c, pattern = str ++ [c].
Proof.
  induction 1 as [|p pattern [Hq Hs] _ IH]; intros str.
  - cbn [glob]. rewrite bool_decide_eq_true. split; [by left|].
    intros [->|[c Hc]]; [done|]. by destruct str.
  - destruct str as [|c str]; cbn [glob].
    + rewrite bool_decide_eq_true. split.
      * intros ->. right. by exists p.
      * intros [?|[c [= _ ->]]]; done.
    + unfold byte_eqb.
      destruct (Ascii.eqb_spec p "?"); [done|].
      destruct (Ascii.eqb_spec p "*"); [done|].
      destruct (Ascii.eqb_spec c p) as [->|Hne].
      * rewrite IH. split.
        -- intros [->|[d ->]]; [by left|right; by exists d].
        -- intros [[= ->]|[d [= ->]]]; [by left|right; by exists d].
      * split; [done|]. intros [[= ? _]|[d [= ? _]]]; done.
Qed.

Lemma existsb_tails_suffix {A : Type} (f : list A → bool) (s t : list A) :
  f t = true → existsb f (tails (s ++ t)) = true.
Proof.
  intros Ht. induction s as [|x s IH].
  - destruct t; simpl; by rewrite Ht.
  - cbn [app tails existsb]. rewrite IH. apply orb_true_r.
Qed.

(** X6: [stringMatch] computes the recursive matcher [glob]: [?] takes
    one byte, [*] takes any number of bytes, any other byte takes itself,
    and at the end of the text at most one pattern byte may be left. *)
Theorem stringMatch_is_glob (str pattern : gostring) :
  stringMatch str pattern = glob pattern str.
Proof. apply stringMatch_glob. Qed.

(** X7: a pattern without [?] and [*] accepts exactly two texts: itself,
    and itself without its last byte. *)
Theorem stringMatch_literal_accepts (str pattern : gostring) :
  wildcard_free pattern →
  stringMatch str pattern = true ↔ str = pattern ∨ ∃ c, pattern = str ++ [c].
Proof. intros Hlit. rewrite stringMatch_glob. by apply glob_literal_iff. Qed.

Lemma stringMatch_literal_accepts_witness :
  stringMatch (go "file.tx") (go "file.txt") = true ↔
  go "file.tx" = go "file.txt" ∨ ∃ c, go "file.txt" = go "file.tx" ++ [c].
Proof.
  apply (stringMatch_literal_accepts (go "file.tx") (go "file.txt")).
  repeat constructor; discriminate.
Defined.

(** X8: the pattern [*] followed by literal bytes accepts every text that
    ends with those bytes; in particular [*] alone accepts every text. *)
Theorem stringMatch_star_suffix (str lit : gostring) :
  wildcard_free lit → stringMatch (str ++ lit) ("*"%char :: lit) = true.
Proof.
  intros Hlit. rewrite stringMatch_glob. cbn [glob].
  destruct (str ++ lit) as [|c rest] eqn:Heq.
  - apply app_eq_nil in Heq as [_ ->]. done.
  - change (byte_eqb "*" "?") with false. change (byte_eqb "*" "*") with true.
    cbn match. rewrite <- Heq. apply existsb_tails_suffix.
    rewrite <- stringMatch_glob. by apply stringMatch_literal_refl.
Qed.

Lemma stringMatch_star_suffix_witness :
  stringMatch (go "yo" ++ go ".swp") ("*"%char :: go ".swp") = true.
Proof.
  apply (stringMatch_star_suffix (go "yo") (go ".swp")).
  repeat constructor; discriminate.
Defined.

(** X9: a pattern of [n] question marks accepts the texts of [n] bytes
    and also those of [n - 1] bytes. *)
Theorem stringMatch_question_marks (n : nat) (str : gostring) :
  stringMatch str (replicate n "?"%char) = true ↔
  length str = n ∨ length str + 1 = n.
Proof.
  rewrite stringMatch_glob. revert str.
  induction n as [|n IH]; intros str; cbn [replicate glob].
  - rewrite bool_decide_eq_true, <- length_zero_iff_nil. lia.
  - destruct str as [|c str].
    + rewrite bool_decide_eq_true, <- length_zero_iff_nil, length_replicate.
      simpl. lia.
    + change (byte_eqb "?" "?") with true. cbn match. rewrite IH. simpl. lia.
Qed.

(** The empty text is accepted by the empty pattern and by every
    pattern of one byte, and by no other; the empty pattern accepts the
    empty text only. *)
Lemma stringMatch_empty (str pattern : gostring) :
  (stringMatch [] pattern = true ↔ length pattern ≤ 1)
  ∧ (stringMatch str [] = true ↔ str = []).
Proof.
  rewrite !stringMatch_glob. split.
  - destruct pattern as [|p pattern]; cbn [glob];
      rewrite bool_decide_eq_true, <- length_zero_iff_nil; simpl; lia.
  - cbn [glob]. apply bool_decide_eq_true.
Qed.

(** ** The component-sequence matcher *)

Lemma drops_descending_from {A : Type} (l : list A) (i : nat) :
  map (fun j => drop j l) (descending i (length l)) = suffixes_shortest_first (drop i l).
Proof.
  unfold descending, suffixes_shortest_first.
  rewrite map_rev. f_equal.
  rewrite <- drops_nonempty_tails, length_drop.
  replace i with (i + 0) at 1 by lia.
  rewrite <- fmap_add_seq, <- list_fmap_compose.
  apply map_ext. intros k. simpl. by rewrite drop_drop.
Qed.

(** The loop of [matchComponents] from index [i] computes [match_seq] on
    what is left of the pattern and of the path. *)
Lemma matchComponents_rec_match_seq (n : nat) :
  ∀ path components od,
    length components ≤ n →
    matchComponents_rec n path components od = match_seq components path.
Proof.
  induction n as [|n IHn]; intros path components od Hn.
  { destruct components; [|simpl in Hn; lia]. simpl.
    f_equal. destruct path; done. }
  cbn [matchComponents_rec].
  match goal with |- context [for_each ?b (seq 0 _) tt] => set (body := b) end.
  assert (∀ k i, i + k = length components → i ≤ length path →
            match for_each body (seq i k) tt with
            | Return r => r
            | Continue _ => (true, length components =? length path)
            end = match_seq (drop i components) (drop i path)) as Hloop.
  { induction k as [|k IHk]; intros i Hik Hi.
    - simpl. rewrite (drop_ge components) by lia. cbn [match_seq]. f_equal.
      destruct (Nat.eqb_spec (length components) (length path)) as [Heq|Hne].
      + by rewrite bool_decide_eq_true_2 by (apply drop_ge; lia).
      + rewrite bool_decide_eq_false_2; [done|].
        intros Hnil%drop_nil_inv. lia.
    - destruct (lookup_lt_is_Some_2 components i) as [c Hc]; [lia|].
      rewrite (drop_S components c i Hc).
      rewrite <- cons_seq, for_each_cons. unfold body at 1.
      destruct (Nat.leb_spec (length path) i) as [Hle|Hlt].
      { by rewrite (drop_ge path). }
      destruct (lookup_lt_is_Some_2 path i) as [p Hp]; [done|].
      rewrite (drop_S path p i Hp). cbn [match_seq].
      rewrite (list_lookup_total_correct components i c Hc).
      rewrite (list_lookup_total_correct path i p Hp).
      destruct (string_eqb c (go "**")).
      + rewrite (for_each_ext _
          (fun j (_ : unit) =>
             if (match_seq (drop (S i) components) (drop j path)).1
             then Return (true, (match_seq (drop (S i) components) (drop j path)).2)
             else Continue tt)).
        2:{ intros j []. rewrite IHn by (rewrite length_drop; lia).
            rewrite Nat.add_1_r. by destruct (match_seq _ _) as [[] ?]. }
        rewrite (for_each_first (fun j => drop j path)
                   (fun a => (match_seq (drop (S i) components) a).1)
                   (fun a => (true, (match_seq (drop (S i) components) a).2))).
        rewrite drops_descending_from, (drop_S path p i Hp).
        by destruct (find _ _).
      + destruct (stringMatch p c); [|done].
        cbn [negb]. apply IHk; lia. }
  rewrite (Hloop (length components) 0) by lia. by rewrite !drop_0.
Qed.

Lemma matchComponents_match_seq (path components : list gostring) (od : bool) :
  matchComponents path components od = match_seq components path.
Proof. by apply matchComponents_rec_match_seq. Qed.

Lemma match_seq_final_matched (components : list gostring) :
  ∀ path, (match_seq components path).2 = true → (match_seq components path).1 = true.
Proof.
  induction components as [|c components IH]; intros path; [done|].
  destruct path as [|p path]; [done|]. cbn [match_seq].
  destruct (string_eqb c (go "**")).
  - by destruct (find _ _).
  - destruct (stringMatch p c); [apply IH|done].
Qed.

Lemma match_seq_no_double_star (components : list gostring) :
  go "**" ∉ components →
  ∀ path,
    ((match_seq components path).1 = true ↔
       length components ≤ length path
       ∧ Forall2 accepts (take (length components) path) components)
    ∧ ((match_seq components path).2 = true ↔ Forall2 accepts path components).
Proof.
  induction components as [|c components IH]; intros Hstar path.
  - cbn [match_seq length take fst snd]. rewrite bool_decide_eq_true. split.
    + split; [intros _; split; [lia|constructor]|done].
    + split; [intros ->; constructor|by intros ->%Forall2_nil_inv_r].
  - apply not_elem_of_cons in Hstar as [Hc Hstar].
    destruct path as [|p path]; cbn [match_seq].
    { split; (split; [done|]).
      - simpl. intros [? _]. lia.
      - intros H. inversion H. }
    unfold string_eqb. rewrite bool_decide_eq_false_2 by congruence.
    destruct (IH Hstar path) as [IH1 IH2].
    destruct (stringMatch p c) eqn:Hpc.
    + rewrite IH1, IH2. cbn [length take]. split.
      * split.
        -- intros [? ?]. split; [lia|by constructor].
        -- intros [? H]. inversion H; subst. split; [lia|done].
      * split; [by constructor|]. intros H. by inversion H.
    + split; (split; [done|]).
      * cbn [length take]. intros [_ H]. inversion H; subst.
        unfold accepts in *. congruence.
      * intros H. inversion H; subst. unfold accepts in *. congruence.
Qed.

Lemma nonempty_tails_app {A : Type} (l e suffix : list A) :
  In suffix (nonempty_tails l) → In (suffix ++ e) (nonempty_tails (l ++ e)).
Proof.
  induction l as [|x l IH]; [done|].
  cbn [app nonempty_tails]. intros [<-|Hin]; [by left|right; by apply IH].
Qed.

Lemma find_is_Some {A : Type} (f : A → bool) (l : list A) (x : A) :
  In x l → f x = true → is_Some (find f l).
Proof.
  intros Hin Hx. destruct (find f l) eqn:Hfind; [eauto|].
  rewrite (find_none f l Hfind x Hin) in Hx. done.
Qed.

Lemma match_seq_extend (components : list gostring) (extra : list gostring) :
  ∀ path, (match_seq components path).1 = true →
          (match_seq components (path ++ extra)).1 = true.
Proof.
  induction components as [|c components IH]; intros path; [done|].
  destruct path as [|p path]; [done|]. cbn [match_seq app].
  destruct (string_eqb c (go "**")).
  - destruct (find _ (suffixes_shortest_first (p :: path))) as [suffix|] eqn:Hfind; [|done].
    intros _. apply find_some in Hfind as [Hin Hsuffix].
    unfold suffixes_shortest_first in *. apply in_rev in Hin.
    destruct (find_is_Some (fun suffix => (match_seq components suffix).1)
                (rev (nonempty_tails (p :: path ++ extra))) (suffix ++ extra))
      as [suffix' ->]; [| |done].
    + apply in_rev. rewrite rev_involutive.
      by apply (nonempty_tails_app (p :: path)).
    + by apply IH.
  - destruct (stringMatch p c); [apply IH|done].
Qed.

(** X10: [matchComponents] computes the recursive matcher [match_seq];
    its [onlyDirectory] argument has no influence on the result. *)
Theorem matchComponents_is_match_seq (path components : list gostring) (od : bool) :
  matchComponents path components od = match_seq components path.
Proof. apply matchComponents_match_seq. Qed.

(** X11: [matchComponents] reports that the whole path was consumed only
    when it reports a match. *)
Theorem matchComponents_final_implies_match (path components : list gostring) (od : bool) :
  (matchComponents path components od).2 = true →
  (matchComponents path components od).1 = true.
Proof. rewrite matchComponents_match_seq. apply match_seq_final_matched. Qed.

Lemma matchComponents_final_implies_match_witness :
  (matchComponents [go "a"; go "b"] [go "a"; go "*"] false).1 = true.
Proof.
  apply (matchComponents_final_implies_match [go "a"; go "b"] [go "a"; go "*"] false).
  vm_compute. reflexivity.
Defined.

(** X12: for a pattern without [**], [matchComponents] is a
    component-wise match of a prefix of the path: it matches when the first
    path components are accepted one by one by the pattern components, and
    it reports the whole path consumed when there are no further path
    components. *)
Theorem matchComponents_without_double_star (path components : list gostring) (od : bool) :
  go "**" ∉ components →
  ((matchComponents path components od).1 = true ↔
     length components ≤ length path
     ∧ Forall2 accepts (take (length components) path) components)
  ∧ ((matchComponents path components od).2 = true ↔ Forall2 accepts path components).
Proof. intros Hstar. rewrite matchComponents_match_seq. by apply match_seq_no_double_star. Qed.

Lemma matchComponents_without_double_star_witness :
  ((matchComponents [go "a"; go "b"; go "c"] [go "a"; go "?"] true).1 = true ↔
     length [go "a"; go "?"] ≤ length [go "a"; go "b"; go "c"]
     ∧ Forall2 accepts (take (length [go "a"; go "?"]) [go "a"; go "b"; go "c"])
         [go "a"; go "?"])
  ∧ ((matchComponents [go "a"; go "b"; go "c"] [go "a"; go "?"] true).2 = true ↔
     Forall2 accepts [go "a"; go "b"; go "c"] [go "a"; go "?"]).
Proof.
  apply (matchComponents_without_double_star [go "a"; go "b"; go "c"] [go "a"; go "?"] true).
  apply (bool_decide_eq_true_1 _). vm_compute. reflexivity.
Defined.

(** X13: a pattern that matches a path matches every longer path that
    starts with it. *)
Theorem matchComponents_prefix_closed (path extra components : list gostring) (od : bool) :
  (matchComponents path components od).1 = true →
  (matchComponents (path ++ extra) components od).1 = true.
Proof. rewrite !matchComponents_match_seq. apply match_seq_extend. Qed.

Lemma matchComponents_prefix_closed_witness :
  (matchComponents ([go "x"; go "foo"] ++ [go "bar"]) [go "**"; go "foo"] false).1 = true.
Proof.
  apply (matchComponents_prefix_closed [go "x"; go "foo"] [go "bar"] [go "**"; go "foo"] false).
  vm_compute. reflexivity.
Defined.

(** ** The rule matcher and the ignore set *)

Lemma Rule_Match_rule_verdict (r : Rule) (path : gostring) :
  Rule_Match r path =
  if length (fields path "/") <=? 1024
  then Some (rule_verdict r (fields path "/") (HasSuffix_slash path))
  else None.
Proof.
  unfold Rule_Match, rule_verdict. rewrite mySplit_fields.
  destruct (length (fields path "/") <=? 1024); [|done].
  cbn [mbind option_bind]. destruct (Relative r); cbn [negb].
  - rewrite matchComponents_match_seq.
    destruct (match_seq _ _) as [matched final]. f_equal.
    by destruct matched, final, (OnlyDirectory r), (HasSuffix_slash path).
  - rewrite <- drops_descending.
    set (ms := match_seq (Components r)).
    rewrite (for_each_ext _
      (fun j (_ : unit) =>
         if (ms (drop j (fields path "/"))).1
         then Return (directory_policy (OnlyDirectory r) (HasSuffix_slash path)
                        (ms (drop j (fields path "/"))))
         else Continue tt)).
    2:{ intros j []. rewrite matchComponents_match_seq. fold ms.
        destruct (ms _) as [[] final]; [|done].
        by rewrite return_expr_policy. }
    rewrite (for_each_first (fun j => drop j (fields path "/")) (fun a => (ms a).1)
               (fun a => directory_policy (OnlyDirectory r) (HasSuffix_slash path) (ms a))).
    by destruct (find _ _).
Qed.

Lemma Rule_Match_same_fields (r : Rule) (p q : gostring) :
  fields p "/" = fields q "/" →
  HasSuffix_slash p = HasSuffix_slash q →
  Rule_Match r p = Rule_Match r q.
Proof. intros Hf Hs. by rewrite !Rule_Match_rule_verdict, Hf, Hs. Qed.

Lemma Gitignore_Match_same_rule_results (os : GOOS) (g : Gitignore) (p q : gostring) :
  (∀ rule, Rule_Match rule (ToSlash os p) = Rule_Match rule (ToSlash os q)) →
  Gitignore_Match os g p = Gitignore_Match os g q.
Proof.
  intros Hsame. unfold Gitignore_Match.
  by rewrite (for_each_ext _
    (fun rule matched =>
       match Rule_Match rule (ToSlash os q) with
       | None => Return tt
       | Some true => if negb (Negate rule) then Continue true else Continue false
       | Some false => Continue matched
       end)) by (intros rule matched; by rewrite Hsame).
Qed.

Lemma ToSlash_slash_cons (os : GOOS) (p : gostring) :
  ToSlash os ("/"%char :: p) = "/"%char :: ToSlash os p.
Proof. by destruct os. Qed.

Lemma ToSlash_nil_inv (os : GOOS) (p : gostring) : ToSlash os p = [] → p = [].
Proof. destruct os; unfold ToSlash; simpl; [done|]. by destruct p. Qed.

(** X14: [Rule.Match] is the rule's verdict on the non-empty components of
    the path and on whether the path ends with a slash; it panics exactly
    when the path has more than 1024 components. *)
Theorem Rule_Match_is_rule_verdict (r : Rule) (path : gostring) :
  Rule_Match r path =
  if length (fields path "/") <=? 1024
  then Some (rule_verdict r (fields path "/") (HasSuffix_slash path))
  else None.
Proof. apply Rule_Match_rule_verdict. Qed.

(** X15: a slash in front of a non-empty query path does not change the
    outcome of [Gitignore.Match]. *)
Theorem Gitignore_Match_leading_slash (os : GOOS) (g : Gitignore) (p : gostring) :
  p ≠ [] →
  Gitignore_Match os g ("/"%char :: p) = Gitignore_Match os g p.
Proof.
  intros Hp. apply Gitignore_Match_same_rule_results. intros rule.
  rewrite ToSlash_slash_cons. apply Rule_Match_same_fields.
  - unfold fields. cbn [fields_from]. by change (byte_eqb "/" "/") with true.
  - unfold HasSuffix_slash.
    destruct (ToSlash os p) eqn:Hts; [|done].
    by apply ToSlash_nil_inv in Hts.
Qed.

Lemma Gitignore_Match_leading_slash_witness :
  Gitignore_Match Unix {| Rules := [rule_foo_dir] |} ("/"%char :: go "foo/bar") =
  Gitignore_Match Unix {| Rules := [rule_foo_dir] |} (go "foo/bar").
Proof.
  apply (Gitignore_Match_leading_slash Unix {| Rules := [rule_foo_dir] |} (go "foo/bar")).
  discriminate.
Defined.

(** A doubled slash inside a query path counts as one. *)
Lemma Gitignore_Match_double_slash (os : GOOS) (g : Gitignore) (p q : gostring) :
  Gitignore_Match os g (p ++ "/"%char :: "/"%char :: q) =
  Gitignore_Match os g (p ++ "/"%char :: q).
Proof.
  apply Gitignore_Match_same_rule_results. intros rule.
  rewrite !ToSlash_app, !ToSlash_slash_cons. apply Rule_Match_same_fields.
  - unfold fields. rewrite !fields_from_app_sep. reflexivity.
  - unfold HasSuffix_slash. by rewrite !last_app_cons.
Qed.

Lemma directory_policy_false (hasSuffix : bool) (res : bool * bool) :
  directory_policy false hasSuffix res = res.1.
Proof. by destruct res. Qed.

(** X16: a rule that is not directory-only and accepts a path accepts every
    path below it that the tokenizer can hold. *)
Theorem Rule_Match_accepts_descendants (r : Rule) (p q : gostring) :
  OnlyDirectory r = false →
  Rule_Match r p = Some true →
  length (fields (p ++ "/"%char :: q) "/") ≤ 1024 →
  Rule_Match r (p ++ "/"%char :: q) = Some true.
Proof.
  intros Hod Hp Hlen. rewrite Rule_Match_rule_verdict in *.
  destruct (Nat.leb_spec (length (fields (p ++ "/"%char :: q) "/")) 1024); [|lia].
  destruct (length (fields p "/") <=? 1024); [|done].
  injection Hp as Hp. f_equal. revert Hp.
  unfold fields, rule_verdict. rewrite fields_from_app_sep, Hod.
  destruct (Relative r).
  - rewrite !directory_policy_false. apply match_seq_extend.
  - destruct (find _ (suffixes_shortest_first (fields_from [] p "/")))
      as [suffix|] eqn:Hfind; [|done].
    rewrite directory_policy_false. intros Hsuffix.
    apply find_some in Hfind as [Hin _].
    unfold suffixes_shortest_first in *. apply in_rev in Hin.
    destruct (find_is_Some (fun suffix => (match_seq (Components r) suffix).1)
                (rev (nonempty_tails (fields_from [] p "/" ++ fields_from [] q "/")))
                (suffix ++ fields_from [] q "/"))
      as [suffix' Hfind']; [| |].
    + apply in_rev. rewrite rev_involutive. by apply nonempty_tails_app.
    + by apply match_seq_extend.
    + rewrite Hfind', directory_policy_false.
      by apply find_some in Hfind' as [_ ?].
Qed.

Lemma Rule_Match_accepts_descendants_witness :
  Rule_Match (mkRule [go "node_modules"] false false false)
    (go "node_modules" ++ "/"%char :: go "test/foo.js") = Some true.
Proof.
  apply (Rule_Match_accepts_descendants (mkRule [go "node_modules"] false false false)
           (go "node_modules") (go "test/foo.js")).
  - reflexivity.
  - vm_compute. reflexivity.
  - vm_compute. lia.
Defined.

Section for_each_more.
Context {I R S : Type}.
Implicit Types (body : I → S → flow R S) (idxs : list I).

Lemma for_each_app body idxs1 idxs2 s :
  for_each body (idxs1 ++ idxs2) s =
  match for_each body idxs1 s with
  | Return r => Return r
  | Continue s' => for_each body idxs2 s'
  end.
Proof.
  revert s. induction idxs1 as [|i idxs1 IH]; intros s; simpl; [done|].
  destruct (body i s); [done | apply IH].
Qed.

End for_each_more.

Lemma Gitignore_Match_loop_rejecting (path : gostring) (rules : list Rule) (ignored : bool) :
  Forall (fun rule => Rule_Match rule path = Some false) rules →
  for_each (fun rule matched =>
      match Rule_Match rule path with
      | None => Return tt
      | Some true => if negb (Negate rule) then Continue true else Continue false
      | Some false => Continue matched
      end) rules ignored = Continue ignored.
Proof.
  induction 1 as [|rule rules Hrule _ IH]; [done|].
  cbn [for_each]. by rewrite Hrule.
Qed.

(** X17: the last rule that accepts the path decides: when no later rule
    accepts it, the verdict is that rule's: ignored unless the rule is
    negated, whatever the earlier rules say. *)
Theorem Gitignore_Match_last_accepting_rule (os : GOOS) (g : Gitignore) (path : gostring)
    (before after : list Rule) (r : Rule) :
  Rules g = before ++ r :: after →
  Rule_Match r (ToSlash os path) = Some true →
  Forall (fun rule => Rule_Match rule (ToSlash os path) = Some false) after →
  Gitignore_Match os g path = Some (negb (Negate r)).
Proof.
  intros Hrules Hr Hafter. unfold Gitignore_Match. rewrite Hrules, for_each_app.
  assert (∃ comps, mySplit (ToSlash os path) "/" = Some comps) as [comps Hsplit].
  { unfold Rule_Match in Hr. destruct (mySplit _ _); [eauto|done]. }
  rewrite (Gitignore_Match_fold_from _ _ _ comps Hsplit).
  cbn [for_each]. rewrite Hr.
  destruct (Negate r); cbn [negb]; by rewrite Gitignore_Match_loop_rejecting.
Qed.

Lemma Gitignore_Match_last_accepting_rule_witness :
  Gitignore_Match Unix
    {| Rules := [mkRule [go "*"] false false true; mkRule [go "foo"] true false true;
                 mkRule [go "bar"] false false false] |}
    (go "foo") = Some (negb (Negate (mkRule [go "foo"] true false true))).
Proof.
  apply (Gitignore_Match_last_accepting_rule Unix _ (go "foo")
           [mkRule [go "*"] false false true] [mkRule [go "bar"] false false false]).
  - reflexivity.
  - vm_compute. reflexivity.
  - repeat constructor.
Defined.

(** When no rule accepts the path, in particular when there is no
    rule, the path is not ignored. *)
Lemma Gitignore_Match_no_accepting_rule (os : GOOS) (g : Gitignore) (path : gostring) :
  Forall (fun rule => Rule_Match rule (ToSlash os path) = Some false) (Rules g) →
  Gitignore_Match os g path = Some false.
Proof.
  intros Hrules. unfold Gitignore_Match.
  by rewrite Gitignore_Match_loop_rejecting.
Qed.

(** X18: [Gitignore.Match] panics exactly when there is at least one rule
    and the path has more than 1024 components. *)
Theorem Gitignore_Match_panics_iff (os : GOOS) (g : Gitignore) (path : gostring) :
  Gitignore_Match os g path = None ↔
  Rules g ≠ [] ∧ 1024 < length (fields (ToSlash os path) "/").
Proof.
  unfold Gitignore_Match.
  destruct (mySplit (ToSlash os path) "/") as [comps|] eqn:Hsplit.
  - rewrite (Gitignore_Match_fold_from _ _ _ comps Hsplit).
    apply mySplit_Some_fields in Hsplit as [<- Hlen].
    split; [done|]. intros [_ ?]. lia.
  - assert (1024 < length (fields (ToSlash os path) "/")) as Hlen.
    { rewrite mySplit_fields in Hsplit.
      destruct (Nat.leb_spec (length (fields (ToSlash os path) "/")) 1024); [done|lia]. }
    destruct (Rules g) as [|rule rules]; cbn [for_each].
    + split; [done|]. by intros [? _].
    + unfold Rule_Match at 1. rewrite Hsplit. cbn [mbind option_bind].
      split; [done|by intros _].
Qed.

(** ** The rule compiler *)

Lemma last_byte_slash (pattern : gostring) (c : ascii) :
  last pattern = Some c → byte_eqb c "/" = HasSuffix_slash pattern.
Proof.
  intros Hlast. unfold HasSuffix_slash, byte_eqb. rewrite Hlast.
  destruct (Ascii.eqb_spec c "/") as [->|Hne].
  - by rewrite bool_decide_eq_true_2.
  - by rewrite bool_decide_eq_false_2 by congruence.
Qed.

Lemma createRule_unfold (pattern : gostring) :
  createRule pattern =
  (c ← pattern !! 0;
   let '(negate, pattern) :=
     if byte_eqb c "!" then (true, drop 1 pattern) else (false, pattern) in
   c ← pattern !! 0;
   let '(relative, pattern) :=
     if byte_eqb c "/" then (true, drop 1 pattern) else (false, pattern) in
   c ← pattern !! 0;
   let pattern := if byte_eqb c "\" then drop 1 pattern else pattern in
   createRule_tail negate relative pattern).
Proof. reflexivity. Qed.

Lemma createRule_tail_fields (pattern : gostring) (negate relative : bool) :
  pattern ≠ [] →
  length (fields pattern "/") ≤ 1024 →
  createRule_tail negate relative pattern
  = Some {| Components := fields pattern "/"; Negate := negate;
            OnlyDirectory := HasSuffix_slash pattern;
            Relative := relative || (1 <? length (fields pattern "/")) |}.
Proof.
  intros Hne Hlen. unfold createRule_tail.
  destruct (last pattern) as [c|] eqn:Hlast; [|by apply last_None in Hlast].
  cbn [mbind option_bind]. rewrite mySplit_fields.
  destruct (Nat.leb_spec (length (fields pattern "/")) 1024); [|lia].
  cbn [mbind option_bind]. by rewrite (last_byte_slash pattern c).
Qed.

Lemma createRule_tail_negate (pattern : gostring) (relative : bool) :
  createRule_tail true relative pattern
  = with_Negate true <$> createRule_tail false relative pattern.
Proof.
  unfold createRule_tail. destruct (last pattern); [|done].
  cbn [mbind option_bind]. by destruct (mySplit pattern "/").
Qed.

Lemma createRule_tail_relative (pattern : gostring) (negate : bool) :
  createRule_tail negate true pattern
  = with_Relative true <$> createRule_tail negate false pattern.
Proof.
  unfold createRule_tail. destruct (last pattern); [|done].
  cbn [mbind option_bind]. by destruct (mySplit pattern "/").
Qed.

(** X19: a pattern that does not start with [!], [/] or a backslash
    compiles to the rule of its text: its non-empty fields as components,
    not negated, directory-only when it ends with a slash, anchored when it
    has more than one component. *)
Theorem createRule_plain (c : ascii) (rest : gostring) :
  c ≠ "!"%char → c ≠ "/"%char → c ≠ "\"%char →
  length (fields (c :: rest) "/") ≤ 1024 →
  createRule (c :: rest) = Some (plain_rule (c :: rest)).
Proof.
  intros H1%Ascii.eqb_neq H2%Ascii.eqb_neq H3%Ascii.eqb_neq Hlen.
  fold (byte_eqb c "!") in H1. fold (byte_eqb c "/") in H2. fold (byte_eqb c "\") in H3.
  rewrite createRule_unfold. cbn -[createRule_tail]. rewrite H1.
  cbn -[createRule_tail]. rewrite H2. cbn -[createRule_tail]. rewrite H3.
  by rewrite createRule_tail_fields.
Qed.

Lemma createRule_plain_witness :
  createRule ("*"%char :: go ".swp") = Some (plain_rule ("*"%char :: go ".swp")).
Proof.
  apply (createRule_plain "*" (go ".swp")); try discriminate.
  vm_compute. lia.
Defined.

(** X20: a [!] in front of a pattern that does not itself start with [!]
    compiles to the same rule, negated; it panics when the pattern does. *)
Theorem createRule_negation (pattern : gostring) :
  head pattern ≠ Some "!"%char →
  createRule ("!"%char :: pattern) = with_Negate true <$> createRule pattern.
Proof.
  intros Hhead. destruct pattern as [|c pattern]; [done|].
  assert (byte_eqb c "!" = false) as Hc.
  { apply Ascii.eqb_neq. intros ->. by apply Hhead. }
  rewrite !createRule_unfold. cbn -[createRule_tail]. rewrite Hc.
  cbn -[createRule_tail].
  destruct (byte_eqb c "/"); cbn -[createRule_tail].
  - destruct pattern as [|c1 pattern]; [done|]. cbn -[createRule_tail].
    apply createRule_tail_negate.
  - apply createRule_tail_negate.
Qed.

Lemma createRule_negation_witness :
  createRule ("!"%char :: go "/foo") = with_Negate true <$> createRule (go "/foo").
Proof. apply (createRule_negation (go "/foo")). discriminate. Defined.

(** X21: a [/] in front of a pattern that starts with neither [!] nor [/]
    compiles to the same rule, anchored; it panics when the pattern does. *)
Theorem createRule_anchor (pattern : gostring) :
  head pattern ≠ Some "!"%char →
  head pattern ≠ Some "/"%char →
  createRule ("/"%char :: pattern) = with_Relative true <$> createRule pattern.
Proof.
  intros Hneg Hanchor. destruct pattern as [|c pattern]; [done|].
  assert (byte_eqb c "!" = false) as Hc1.
  { apply Ascii.eqb_neq. intros ->. by apply Hneg. }
  assert (byte_eqb c "/" = false) as Hc2.
  { apply Ascii.eqb_neq. intros ->. by apply Hanchor. }
  rewrite !createRule_unfold. cbn -[createRule_tail]. rewrite Hc1.
  cbn -[createRule_tail]. rewrite Hc2. cbn -[createRule_tail].
  apply createRule_tail_relative.
Qed.

Lemma createRule_anchor_witness :
  createRule ("/"%char :: go "*.c") = with_Relative true <$> createRule (go "*.c").
Proof. apply (createRule_anchor (go "*.c")); discriminate. Defined.

(** X22: after a leading backslash nothing is read as a marker: the rest
    of the text, whatever its first byte, compiles to its plain rule. *)
Theorem createRule_escape (pattern : gostring) :
  pattern ≠ [] →
  length (fields pattern "/") ≤ 1024 →
  createRule ("\"%char :: pattern) = Some (plain_rule pattern).
Proof.
  intros Hne Hlen. rewrite createRule_unfold. cbn -[createRule_tail].
  by rewrite createRule_tail_fields.
Qed.

Lemma createRule_escape_witness :
  createRule ("\"%char :: go "!file.txt") = Some (plain_rule (go "!file.txt")).
Proof.
  apply (createRule_escape (go "!file.txt")); [discriminate|].
  vm_compute. lia.
Defined.

(** ** Compiling lines and files *)

Lemma CompileIgnoreLines_loop (patterns : list gostring) :
  ∀ rules,
    for_each (fun pattern rules =>
        let pattern := Trim pattern whitespace in
        if bool_decide (pattern = []) || bool_decide (pattern !! 0 = Some "#"%char)
        then Continue rules
        else
          match createRule pattern with
          | Some rule => Continue (rules ++ [rule])
          | None => Return tt
          end)
      patterns rules =
    match
      mapM createRule
        (List.filter rule_line (map (fun p => Trim p whitespace) patterns))
    with
    | Some compiled => Continue (rules ++ compiled)
    | None => Return tt
    end.
Proof.
  induction patterns as [|p patterns IH]; intros rules.
  - simpl. by rewrite app_nil_r.
  - cbn [for_each map List.filter]. unfold rule_line at 1.
    destruct (bool_decide (Trim p whitespace = [])
              || bool_decide (Trim p whitespace !! 0 = Some "#"%char)); cbn [negb].
    + apply IH.
    + cbn [mapM mbind option_bind].
      destruct (createRule (Trim p whitespace)) as [rule|]; [|done].
      rewrite IH. cbn [mbind option_bind].
      destruct (mapM createRule _); [|done].
      cbn [mbind option_bind mret option_ret]. by rewrite <- app_assoc.
Qed.

Lemma mapM_option_app {A B : Type} (f : A → option B) (l1 l2 : list A) :
  mapM f (l1 ++ l2) = (a ← mapM f l1; b ← mapM f l2; Some (a ++ b)).
Proof.
  induction l1 as [|x l1 IH]; cbn [app mapM].
  - cbn [mret option_ret mbind option_bind]. by destruct (mapM f l2).
  - destruct (f x); [|done]. cbn [mbind option_bind]. rewrite IH.
    destruct (mapM f l1); [|done]. cbn [mbind option_bind].
    by destruct (mapM f l2).
Qed.

Lemma CompileIgnoreLines_mapM (patterns : list gostring) :
  CompileIgnoreLines patterns =
  mkGitignore <$>
    mapM createRule (List.filter rule_line (map (fun p => Trim p whitespace) patterns)).
Proof.
  unfold CompileIgnoreLines. rewrite CompileIgnoreLines_loop.
  by destruct (mapM createRule _).
Qed.

(** X23: [CompileIgnoreLines] trims every line, drops the blank lines and
    the lines that start with [#], and compiles the others in order with
    [createRule]; it panics exactly when one of these compilations does. *)
Theorem CompileIgnoreLines_is_filter_and_compile (patterns : list gostring) :
  CompileIgnoreLines patterns =
  mkGitignore <$>
    mapM createRule (List.filter rule_line (map (fun p => Trim p whitespace) patterns)).
Proof. apply CompileIgnoreLines_mapM. Qed.

(** Compiling two lists of lines one after the other gives the rules
    of the first followed by the rules of the second, and panics when either
    does. *)
Lemma CompileIgnoreLines_app (patterns1 patterns2 : list gostring) :
  CompileIgnoreLines (patterns1 ++ patterns2) =
  (g1 ← CompileIgnoreLines patterns1;
   g2 ← CompileIgnoreLines patterns2;
   Some {| Rules := Rules g1 ++ Rules g2 |}).
Proof.
  rewrite !CompileIgnoreLines_mapM, map_app, List.filter_app, mapM_option_app.
  destruct (mapM createRule (List.filter rule_line (map _ patterns1))); [|done].
  cbn [mbind option_bind fmap option_fmap option_map].
  by destruct (mapM createRule (List.filter rule_line (map _ patterns2))).
Qed.

Lemma TrimLeft_snoc (s cutset : gostring) (c : ascii) :
  existsb (byte_eqb c) cutset = true →
  TrimLeft (s ++ [c]) cutset =
  match TrimLeft s cutset with
  | [] => []
  | t => t ++ [c]
  end.
Proof.
  intros Hc. induction s as [|x s IH]; cbn [app TrimLeft].
  - by rewrite Hc.
  - destruct (existsb (byte_eqb x) cutset); [apply IH|done].
Qed.

Lemma TrimRight_snoc (s cutset : gostring) (c : ascii) :
  existsb (byte_eqb c) cutset = true →
  TrimRight (s ++ [c]) cutset = TrimRight s cutset.
Proof.
  intros Hc. unfold TrimRight. rewrite rev_unit. cbn [TrimLeft]. by rewrite Hc.
Qed.

Lemma Trim_snoc (s cutset : gostring) (c : ascii) :
  existsb (byte_eqb c) cutset = true →
  Trim (s ++ [c]) cutset = Trim s cutset.
Proof.
  intros Hc. unfold Trim. rewrite TrimLeft_snoc by done.
  destruct (TrimLeft s cutset) as [|x t] eqn:Heq; [done|].
  by rewrite TrimRight_snoc.
Qed.

(** X24: a whitespace byte at the end of every line, such as the carriage
    return of a CRLF line end, does not change what [CompileIgnoreLines]
    returns. *)
Theorem CompileIgnoreLines_trailing_whitespace (c : ascii) (patterns : list gostring) :
  existsb (byte_eqb c) whitespace = true →
  CompileIgnoreLines (map (fun p => p ++ [c]) patterns) = CompileIgnoreLines patterns.
Proof.
  intros Hc. rewrite !CompileIgnoreLines_mapM, map_map.
  do 3 f_equal. apply map_ext. intros p. by apply Trim_snoc.
Qed.

Lemma CompileIgnoreLines_trailing_whitespace_witness :
  CompileIgnoreLines (map (fun p => p ++ ["013"%char]) [go "abc/def"; go "b"]) =
  CompileIgnoreLines [go "abc/def"; go "b"].
Proof.
  apply (CompileIgnoreLines_trailing_whitespace "013" [go "abc/def"; go "b"]).
  reflexivity.
Defined.

Lemma Split_from_snoc_sep (s : gostring) (sep : ascii) :
  ∀ cur, Split_from cur (s ++ [sep]) sep = Split_from cur s sep ++ [[]].
Proof.
  induction s as [|c s IH]; intros cur; cbn [app Split_from].
  - unfold byte_eqb. by rewrite Ascii.eqb_refl.
  - destruct (byte_eqb c sep); by rewrite IH.
Qed.

(** X25: a newline at the end of the file does not change what
    [CompileIgnoreFile] returns: the empty last line gives no rule. *)
Theorem CompileIgnoreFile_final_newline {E : Type} (bytes : gostring) (err : option E) :
  CompileIgnoreFile (bytes ++ ["010"%char], err) = CompileIgnoreFile (bytes, err).
Proof.
  unfold CompileIgnoreFile, Split.
  rewrite Split_from_snoc_sep, CompileIgnoreLines_app.
  destruct (CompileIgnoreLines (Split_from [] bytes "010")) as [[rules]|]; [|done].
  cbn. by rewrite app_nil_r.
Qed.

(** ** The revision: the tokenizer with a caller-provided buffer *)

(** The loop of the revision's [mySplit] and the write after it, from index
    [r] with the field [s[l:r]] being read: the remaining fields go into the
    buffer after the [idx] components written so far, and the rest of the
    buffer is left as it was. *)
Lemma Revised_mySplit_loop (s : gostring) (sep : ascii) :
  ∀ k r buf idx l, r + k = length s → l ≤ r → idx ≤ length buf →
    match for_each (Revised.mySplit_step s sep) (seq r k) (buf, idx, l) with
    | Return _ => None
    | Continue (buf, idx, l) =>
        if l <? length s then
          if idx <? length buf
          then Some (<[idx := slice s l (length s)]> buf,
                     take (idx + 1) (<[idx := slice s l (length s)]> buf))
          else None
        else Some (buf, take idx buf)
    end =
    let fs := fields_from (slice s l r) (drop r s) sep in
    if idx + length fs <=? length buf
    then Some (take idx buf ++ fs ++ drop (idx + length fs) buf, take idx buf ++ fs)
    else None.
Proof.
  induction k as [|k IH]; intros r buf idx l Hrk Hlr Hidx.
  - assert (r = length s) as -> by lia.
    cbn [seq for_each]. rewrite drop_all. cbn [fields_from]. cbn zeta.
    rewrite flush_slice by lia.
    destruct (l <? length s); cbn [length].
    + destruct (Nat.ltb_spec idx (length buf)).
      * destruct (Nat.leb_spec (idx + 1) (length buf)); [|lia].
        rewrite take_insert_snoc by done. f_equal. f_equal.
        rewrite insert_take_drop by done. cbn [app].
        by rewrite Nat.add_1_r.
      * destruct (Nat.leb_spec (idx + 1) (length buf)); [lia|done].
    + destruct (Nat.leb_spec (idx + 0) (length buf)); [|lia].
      rewrite Nat.add_0_r, app_nil_r. cbn [app]. by rewrite take_drop.
  - rewrite <- cons_seq, for_each_cons. unfold Revised.mySplit_step at 1.
    destruct (lookup_lt_is_Some_2 s r) as [c Hc]; [lia|].
    rewrite (drop_S s c r Hc), Hc. cbn [fields_from]. unfold byte_eqb.
    destruct (Ascii.eqb_spec c sep) as [->|Hne].
    + rewrite bool_decide_eq_true_2 by done.
      rewrite flush_slice by lia.
      destruct (l <? r).
      * destruct (Nat.ltb_spec idx (length buf)).
        -- rewrite Nat.add_1_r. rewrite IH by (rewrite ?length_insert; lia).
           rewrite slice_nil by lia. rewrite length_insert.
           cbn zeta. cbn [length app].
           replace (S idx + length (fields_from [] (drop (S r) s) sep))
             with (idx + S (length (fields_from [] (drop (S r) s) sep))) by lia.
           destruct (_ <=? _); [|done].
           rewrite <- Nat.add_1_r, take_insert_snoc by done.
           rewrite drop_insert_lt by lia.
           by rewrite <- !app_assoc.
        -- cbn zeta. cbn [length app].
           destruct (Nat.leb_spec (idx + S (length (fields_from [] (drop (S r) s) sep)))
                       (length buf)); [lia|done].
      * rewrite Nat.add_1_r. rewrite IH by lia.
        by rewrite slice_nil by lia.
    + rewrite bool_decide_eq_false_2 by congruence.
      rewrite IH by lia. by rewrite (slice_snoc s l r c).
Qed.

Lemma Revised_mySplit_fields (s : gostring) (sep : ascii) (buf : list gostring) :
  Revised.mySplit s sep buf =
  if length (fields s sep) <=? length buf
  then Some (fields s sep ++ drop (length (fields s sep)) buf, fields s sep)
  else None.
Proof.
  unfold Revised.mySplit. cbn zeta.
  rewrite (Revised_mySplit_loop s sep (length s) 0 buf 0 0) by lia.
  rewrite slice_nil by lia. by rewrite drop_0, take_0.
Qed.

(** X26: the revision's [mySplit] writes the non-empty fields to the front
    of the buffer it is given, leaves the rest of the buffer as it was and
    returns the fields; it panics exactly when there are more fields than
    buffer slots.  What the buffer held before has no influence. *)
Theorem Revised_mySplit_writes_fields (s : gostring) (sep : ascii) (buf : list gostring) :
  Revised.mySplit s sep buf =
  if length (fields s sep) <=? length buf
  then Some (fields s sep ++ drop (length (fields s sep)) buf, fields s sep)
  else None.
Proof. apply Revised_mySplit_fields. Qed.

(** ** The revision: the segment matcher *)

Lemma existsb_find {A : Type} (f : A → bool) (l : list A) :
  existsb f l = match find f l with Some _ => true | None => false end.
Proof. induction l as [|x l IH]; simpl; [done|]. by destruct (f x). Qed.

Lemma Revised_stringMatch_rec_glob (n : nat) :
  ∀ str pattern,
    length pattern ≤ n → bracket_free pattern →
    Revised.stringMatch_rec n str pattern = Some (glob pattern str).
Proof.
  induction n as [|n IHn]; intros str pattern Hn Hfree.
  { destruct pattern; [|simpl in Hn; lia].
    destruct str; reflexivity. }
  cbn [Revised.stringMatch_rec].
  match goal with |- context [for_each ?b (seq 0 _) 0] => set (body := b) end.
  assert (∀ k i j, i + k = length str →
            match for_each body (seq i k) j with
            | Return r => r
            | Continue j =>
                if (Z.of_nat j <? Z.of_nat (length pattern) - 1)%Z
                then Some false else Some true
            end = Some (glob (drop j pattern) (drop i str))) as Hloop.
  { induction k as [|k IHk]; intros i j Hik.
    - simpl. rewrite (drop_ge str) by lia.
      destruct (drop j pattern) as [|p pattern'] eqn:Hdrop.
      + apply drop_nil_inv in Hdrop.
        destruct (Z.ltb_spec (Z.of_nat j) (Z.of_nat (length pattern) - 1)); [lia|done].
      + assert (length (p :: pattern') = length pattern - j) as Hlen
          by (by rewrite <- Hdrop, length_drop).
        simpl in Hlen.
        destruct (Z.ltb_spec (Z.of_nat j) (Z.of_nat (length pattern) - 1)).
        * cbn [glob]. rewrite bool_decide_eq_false_2; [done|].
          intros ->. simpl in Hlen. lia.
        * cbn [glob]. rewrite bool_decide_eq_true_2; [done|].
          destruct pattern'; [done|]. simpl in Hlen. lia.
    - destruct (lookup_lt_is_Some_2 str i) as [c Hc]; [lia|].
      rewrite (drop_S str c i Hc).
      rewrite <- cons_seq, for_each_cons. unfold body at 1.
      destruct (Nat.leb_spec (length pattern) j) as [Hj|Hj].
      { by rewrite (drop_ge pattern). }
      destruct (lookup_lt_is_Some_2 pattern j) as [p Hp]; [done|].
      rewrite (drop_S pattern p j Hp). cbn [glob]. cbn zeta.
      rewrite (list_lookup_total_correct pattern j p Hp).
      rewrite (list_lookup_total_correct str i c Hc).
      destruct (byte_eqb p "?").
      { rewrite <- (Nat.add_1_r j). apply IHk. lia. }
      destruct (byte_eqb p "*").
      { rewrite (for_each_ext _
          (fun k' (_ : unit) =>
             if glob (drop (j + 1) pattern) (drop k' str)
             then Return (Some true) else Continue tt)).
        2:{ intros k' []. rewrite IHn.
            - by destruct (glob _ _).
            - rewrite length_drop. lia.
            - by apply Forall_drop. }
        rewrite (for_each_first (fun k' => drop k' str)
                   (glob (drop (j + 1) pattern)) (fun _ => Some true)).
        unfold descending. rewrite map_rev, drops_tails_from by lia.
        rewrite <- (drop_S str c i Hc).
        rewrite <- (existsb_rev _ (tails (drop i str))), existsb_find.
        rewrite (Nat.add_1_r j).
        by destruct (find _ _). }
      assert (byte_eqb p "[" = false ∧ byte_eqb p "\" = false) as [-> ->].
      { unfold bracket_free in Hfree. rewrite Forall_lookup in Hfree.
        destruct (Hfree j p Hp) as [H1 H2].
        split; by apply Ascii.eqb_neq. }
      rewrite Hp. destruct (byte_eqb c p); cbn [negb]; [|done].
      rewrite <- (Nat.add_1_r j). apply IHk. lia. }
  rewrite (Hloop (length str) 0 0) by lia. by rewrite !drop_0.
Qed.

Lemma Revised_stringMatch_agrees_plain (str pattern : gostring) :
  bracket_free pattern →
  Revised.stringMatch str pattern = Some (stringMatch str pattern).
Proof.
  intros Hfree. rewrite stringMatch_glob.
  by apply Revised_stringMatch_rec_glob.
Qed.

(** X27: on patterns without an opening bracket and without a backslash,
    the revision's [stringMatch] does not panic and returns what
    [stringMatch] of goignore.go returns. *)
Theorem Revised_stringMatch_agrees (str pattern : gostring) :
  bracket_free pattern →
  Revised.stringMatch str pattern = Some (stringMatch str pattern).
Proof. apply Revised_stringMatch_agrees_plain. Qed.

Lemma Revised_stringMatch_agrees_witness :
  Revised.stringMatch (go "git.html") (go "*.html")
  = Some (stringMatch (go "git.html") (go "*.html")).
Proof.
  apply (Revised_stringMatch_agrees (go "git.html") (go "*.html")).
  repeat constructor; discriminate.
Defined.

(** ** The revision: the matchers of sequences, rules and sets *)

Lemma Revised_matchComponents_rec_match_seq (n : nat) :
  ∀ path components,
    length components ≤ n →
    Forall bracket_free components →
    Revised.matchComponents_rec n path components = Some (match_seq components path).
Proof.
  induction n as [|n IHn]; intros path components Hn Hfree.
  { destruct components; [|simpl in Hn; lia]. simpl.
    do 2 f_equal. destruct path; done. }
  cbn [Revised.matchComponents_rec].
  match goal with |- context [for_each ?b (seq 0 _) tt] => set (body := b) end.
  assert (∀ k i, i + k = length components → i ≤ length path →
            match for_each body (seq i k) tt with
            | Return r => r
            | Continue _ => Some (true, length components =? length path)
            end = Some (match_seq (drop i components) (drop i path))) as Hloop.
  { induction k as [|k IHk]; intros i Hik Hi.
    - simpl. rewrite (drop_ge components) by lia. cbn [match_seq]. do 2 f_equal.
      destruct (Nat.eqb_spec (length components) (length path)) as [Heq|Hne].
      + by rewrite bool_decide_eq_true_2 by (apply drop_ge; lia).
      + rewrite bool_decide_eq_false_2; [done|].
        intros Hnil%drop_nil_inv. lia.
    - destruct (lookup_lt_is_Some_2 components i) as [c Hc]; [lia|].
      rewrite (drop_S components c i Hc).
      rewrite <- cons_seq, for_each_cons. unfold body at 1.
      destruct (Nat.leb_spec (length path) i) as [Hle|Hlt].
      { by rewrite (drop_ge path). }
      destruct (lookup_lt_is_Some_2 path i) as [p Hp]; [done|].
      rewrite (drop_S path p i Hp). cbn [match_seq].
      rewrite (list_lookup_total_correct components i c Hc).
      rewrite (list_lookup_total_correct path i p Hp).
      destruct (string_eqb c (go "**")).
      + rewrite (for_each_ext _
          (fun j (_ : unit) =>
             if (match_seq (drop (S i) components) (drop j path)).1
             then Return (Some (true, (match_seq (drop (S i) components) (drop j path)).2))
             else Continue tt)).
        2:{ intros j []. rewrite IHn.
            - rewrite Nat.add_1_r. by destruct (match_seq _ _) as [[] ?].
            - rewrite length_drop. lia.
            - by apply Forall_drop. }
        rewrite (for_each_first (fun j => drop j path)
                   (fun a => (match_seq (drop (S i) components) a).1)
                   (fun a => Some (true, (match_seq (drop (S i) components) a).2))).
        rewrite drops_descending_from, (drop_S path p i Hp).
        by destruct (find _ _).
      + rewrite Revised_stringMatch_agrees_plain.
        2:{ rewrite Forall_lookup in Hfree. by apply (Hfree i c). }
        destruct (stringMatch p c); [|done].
        apply IHk; lia. }
  rewrite (Hloop (length components) 0) by lia. by rewrite !drop_0.
Qed.

Lemma Revised_matchComponents_match_seq (path components : list gostring) :
  Forall bracket_free components →
  Revised.matchComponents path components = Some (match_seq components path).
Proof. intros. by apply Revised_matchComponents_rec_match_seq. Qed.

(** [matchesPath] is the split followed by the verdict on the components. *)
Lemma Revised_matchesPath_split (r : Rule) (path : gostring) (buf : list gostring) :
  Revised.matchesPath r path buf =
  if length (fields path "/") <=? length buf
  then b ← revised_verdict r (fields path "/") (HasSuffix_slash path);
       Some (b, fields path "/" ++ drop (length (fields path "/")) buf)
  else None.
Proof.
  unfold Revised.matchesPath, revised_verdict. cbn zeta.
  rewrite Revised_mySplit_fields.
  destruct (length (fields path "/") <=? length buf); [|done].
  cbn [mbind option_bind]. destruct (negb (Relative r)).
  - by destruct (for_each _ _ _) as [[b|]|].
  - by destruct (Revised.matchComponents _ _) as [[matched final]|].
Qed.

Lemma revised_verdict_plain (r : Rule) (comps : list gostring) (hasSuffix : bool) :
  Forall bracket_free (Components r) →
  revised_verdict r comps hasSuffix = Some (rule_verdict r comps hasSuffix).
Proof.
  intros Hfree. unfold revised_verdict, rule_verdict.
  destruct (Relative r); cbn [negb].
  - rewrite Revised_matchComponents_match_seq by done.
    destruct (match_seq _ _) as [matched final]. cbn. f_equal.
    by destruct matched, final, (OnlyDirectory r), hasSuffix.
  - rewrite <- drops_descending.
    set (ms := match_seq (Components r)).
    rewrite (for_each_ext _
      (fun j (_ : unit) =>
         if (ms (drop j comps)).1
         then Return (Some (directory_policy (OnlyDirectory r) hasSuffix
                              (ms (drop j comps))))
         else Continue tt)).
    2:{ intros j []. rewrite Revised_matchComponents_match_seq by done. fold ms.
        destruct (ms _) as [[] final]; [|done].
        by rewrite return_expr_policy. }
    rewrite (for_each_first (fun j => drop j comps) (fun a => (ms a).1)
               (fun a => Some (directory_policy (OnlyDirectory r) hasSuffix (ms a)))).
    by destruct (find _ _).
Qed.

(** The verdict of a run of the rule loop, without the buffer. *)
Lemma Revised_MatchesPath_loop_buffer (path : gostring) (rules : list Rule) :
  ∀ matched buf1 buf2,
    length buf1 = length buf2 →
    match
      for_each (fun rule '(matched, buf) =>
          match Revised.matchesPath rule path buf with
          | None => Return tt
          | Some (true, buf) =>
              if negb (Negate rule) then Continue (true, buf) else Continue (false, buf)
          | Some (false, buf) => Continue (matched, buf)
          end) rules (matched, buf1),
      for_each (fun rule '(matched, buf) =>
          match Revised.matchesPath rule path buf with
          | None => Return tt
          | Some (true, buf) =>
              if negb (Negate rule) then Continue (true, buf) else Continue (false, buf)
          | Some (false, buf) => Continue (matched, buf)
          end) rules (matched, buf2)
    with
    | Return _, Return _ => True
    | Continue (m1, b1), Continue (m2, b2) =>
        m1 = m2 ∧ length b1 = length b2 ∧ length b1 = length buf1
    | _, _ => False
    end.
Proof.
  induction rules as [|rule rules IH]; intros matched buf1 buf2 Hlen; [done|].
  cbn [for_each]. rewrite !Revised_matchesPath_split, <- Hlen.
  destruct (Nat.leb_spec (length (fields path "/")) (length buf1)) as [Hfit|]; [|done].
  destruct (revised_verdict rule _ _) as [b|]; [|done].
  cbn [mbind option_bind].
  assert (length (fields path "/" ++ drop (length (fields path "/")) buf1)
          = length buf1) as Hlen1 by (rewrite length_app, length_drop; lia).
  assert (length (fields path "/" ++ drop (length (fields path "/")) buf2)
          = length buf1) as Hlen2 by (rewrite length_app, length_drop; lia).
  destruct b; [destruct (negb (Negate rule))|];
    match goal with
    | |- context [for_each _ rules (?m, ?b1)] =>
        match goal with
        | |- context [for_each _ rules (m, ?b2)] =>
            pose proof (IH m (fields path "/" ++ drop (length (fields path "/")) buf1)
                          (fields path "/" ++ drop (length (fields path "/")) buf2)
                          ltac:(congruence)) as H
        end
    end;
    destruct (for_each _ rules (_, fields path "/" ++ drop _ buf1)) as [|[m1 b1]],
             (for_each _ rules (_, fields path "/" ++ drop _ buf2)) as [|[m2 b2]];
    try done; destruct H as (? & ? & ?); repeat split; congruence.
Qed.

(** X28: a query leaves the set as good as it found it: after
    [MatchesPath] has returned, every further query on the set it leaves
    (the same rules, the buffer overwritten) has the outcome it would have
    had on the original set. *)
Theorem Revised_MatchesPath_reusable (os : GOOS) (g g' : Revised.GitIgnore)
    (path path' : gostring) (b : bool) :
  Revised.MatchesPath os g path = Some (b, g') →
  fst <$> Revised.MatchesPath os g' path' = fst <$> Revised.MatchesPath os g path'.
Proof.
  unfold Revised.MatchesPath. intros Hfirst.
  pose proof (Revised_MatchesPath_loop_buffer (ToSlash os path) (Revised.Rules g) false
                (Revised.pathComponentsBuf g) (Revised.pathComponentsBuf g) eq_refl) as H1.
  destruct (for_each _ (Revised.Rules g) (false, Revised.pathComponentsBuf g))
    as [|[m buf]] eqn:Hrun; [done|].
  destruct H1 as (_ & _ & Hlen). clear Hrun.
  injection Hfirst as _ <-. cbn [Revised.Rules Revised.pathComponentsBuf].
  pose proof (Revised_MatchesPath_loop_buffer (ToSlash os path') (Revised.Rules g) false
                buf (Revised.pathComponentsBuf g) Hlen) as H2.
  destruct (for_each _ (Revised.Rules g) (false, buf)) as [|[m1 b1]],
           (for_each _ (Revised.Rules g) (false, Revised.pathComponentsBuf g)) as [|[m2 b2]];
    cbn in H2; try done. by destruct H2 as (-> & _).
Qed.

Lemma Revised_MatchesPath_reusable_witness :
  fst <$> Revised.MatchesPath Unix
            {| Revised.Rules := [mkRule [go "foo"] false false false];
               Revised.pathComponentsBuf := [go "a"; go "foo"; []; []] |} (go "b")
  = fst <$> Revised.MatchesPath Unix
              {| Revised.Rules := [mkRule [go "foo"] false false false];
                 Revised.pathComponentsBuf := replicate 4 [] |} (go "b").
Proof.
  apply (Revised_MatchesPath_reusable Unix
           {| Revised.Rules := [mkRule [go "foo"] false false false];
              Revised.pathComponentsBuf := replicate 4 [] |}
           {| Revised.Rules := [mkRule [go "foo"] false false false];
              Revised.pathComponentsBuf := [go "a"; go "foo"; []; []] |}
           (go "a/foo") (go "b") true).
  vm_compute. reflexivity.
Defined.

Lemma Revised_MatchesPath_loop_fold (path : gostring) (rules : list Rule) :
  Forall (fun rule => Forall bracket_free (Components rule)) rules →
  length (fields path "/") ≤ 1024 →
  ∀ matched buf,
    length (fields path "/") ≤ length buf →
    ∃ buf',
      for_each (fun rule '(matched, buf) =>
          match Revised.matchesPath rule path buf with
          | None => Return tt
          | Some (true, buf) =>
              if negb (Negate rule) then Continue (true, buf) else Continue (false, buf)
          | Some (false, buf) => Continue (matched, buf)
          end) rules (matched, buf)
      = Continue (fold_left (verdict_step path) rules matched, buf')
      ∧ length buf' = length buf.
Proof.
  intros Hfree Hcap.
  induction Hfree as [|rule rules Hrule _ IH]; intros matched buf Hbuf.
  { by exists buf. }
  cbn [for_each fold_left]. rewrite Revised_matchesPath_split.
  destruct (Nat.leb_spec (length (fields path "/")) (length buf)); [|lia].
  rewrite revised_verdict_plain by done. cbn [mbind option_bind].
  assert (length (fields path "/" ++ drop (length (fields path "/")) buf)
          = length buf) as Hlen by (rewrite length_app, length_drop; lia).
  assert (∀ m, ∃ buf',
            for_each (fun rule '(matched, buf) =>
                match Revised.matchesPath rule path buf with
                | None => Return tt
                | Some (true, buf) =>
                    if negb (Negate rule) then Continue (true, buf)
                    else Continue (false, buf)
                | Some (false, buf) => Continue (matched, buf)
                end) rules
              (m, fields path "/" ++ drop (length (fields path "/")) buf)
            = Continue (fold_left (verdict_step path) rules m, buf')
            ∧ length buf' = length buf) as IH'.
  { intros m.
    destruct (IH m (fields path "/" ++ drop (length (fields path "/")) buf))
      as (buf' & ? & ?); [lia|].
    exists buf'. split; [done|congruence]. }
  unfold verdict_step at 2, rule_accepts. rewrite Rule_Match_rule_verdict.
  destruct (Nat.leb_spec (length (fields path "/")) 1024); [|lia].
  destruct (rule_verdict rule _ _).
  - rewrite bool_decide_eq_true_2 by done.
    destruct (Negate rule); cbn [negb]; apply IH'.
  - rewrite bool_decide_eq_false_2 by done. apply IH'.
Qed.

(** X29: for rules whose components have no opening bracket and no
    backslash, and a path that fits both tokenizers, [MatchesPath] of the
    revision returns the verdict that [Gitignore.Match] of goignore.go
    returns on the same rules. *)
Theorem Revised_MatchesPath_agrees (os : GOOS) (g : Revised.GitIgnore) (path : gostring) :
  Forall (fun rule => Forall bracket_free (Components rule)) (Revised.Rules g) →
  length (fields (ToSlash os path) "/") ≤ 1024 →
  length (fields (ToSlash os path) "/") ≤ length (Revised.pathComponentsBuf g) →
  fst <$> Revised.MatchesPath os g path
  = Gitignore_Match os {| Rules := Revised.Rules g |} path.
Proof.
  intros Hfree Hcap Hbuf. unfold Revised.MatchesPath, Gitignore_Match.
  destruct (Revised_MatchesPath_loop_fold (ToSlash os path) (Revised.Rules g) Hfree Hcap
              false (Revised.pathComponentsBuf g) Hbuf) as (buf' & -> & _).
  rewrite (Gitignore_Match_fold_from _ _ _ (fields (ToSlash os path) "/")).
  - done.
  - rewrite mySplit_fields.
    by destruct (Nat.leb_spec (length (fields (ToSlash os path) "/")) 1024); [|lia].
Qed.

Lemma Revised_MatchesPath_agrees_witness :
  fst <$> Revised.MatchesPath Unix
            {| Revised.Rules := [mkRule [go "*.swp"] false false false];
               Revised.pathComponentsBuf := replicate 8 [] |} (go "a/yo.swp")
  = Gitignore_Match Unix {| Rules := [mkRule [go "*.swp"] false false false] |}
      (go "a/yo.swp").
Proof.
  apply (Revised_MatchesPath_agrees Unix
           {| Revised.Rules := [mkRule [go "*.swp"] false false false];
              Revised.pathComponentsBuf := replicate 8 [] |} (go "a/yo.swp")).
  - repeat constructor; discriminate.
  - vm_compute. lia.
  - vm_compute. lia.
Defined.

(** ** The revision: bracket expressions *)

(** The scan of a bracket expression whose members are plain bytes: it
    stops at the closing bracket and reports whether the text byte is among
    the members. *)
Lemma bracket_scan_set (c : ascii) (set post : gostring) :
  Forall (fun x => x ≠ "]"%char ∧ x ≠ "-"%char) set →
  ∀ pre matched,
    Revised.bracket_scan c (pre ++ set ++ "]"%char :: post) (length pre) matched
    = Some (length pre + length set, matched || bool_decide (c ∈ set)).
Proof.
  induction 1 as [|x set [Hx1 Hx2] Hset IH]; intros pre matched.
  - unfold Revised.bracket_scan. rewrite length_app. cbn [app length].
    replace (length pre + S (length post) - length pre) with (S (length post)) by lia.
    rewrite <- cons_seq, for_each_cons.
    rewrite list_lookup_middle by done.
    rewrite bool_decide_eq_true_2 by done.
    rewrite Nat.add_0_r. do 2 f_equal.
    rewrite bool_decide_eq_false_2 by apply not_elem_of_nil. by rewrite orb_false_r.
  - cbn [app].
    assert (length (pre ++ x :: set ++ "]"%char :: post)
            = length pre + S (length set + S (length post))) as Hlen.
    { rewrite length_app. cbn [length]. rewrite length_app. done. }
    specialize (IH (pre ++ [x])).
    rewrite <- app_assoc in IH. cbn [app] in IH.
    rewrite length_app in IH. cbn [length] in IH.
    unfold Revised.bracket_scan in *. rewrite Hlen in *.
    replace (length pre + S (length set + S (length post)) - length pre)
      with (S (length set + S (length post))) by lia.
    replace (length pre + S (length set + S (length post)) - (length pre + 1))
      with (length set + S (length post)) in IH by lia.
    rewrite Nat.add_1_r in IH.
    rewrite <- cons_seq, for_each_cons.
    rewrite list_lookup_middle by done.
    rewrite bool_decide_eq_false_2 by congruence.
    assert (bool_decide (c ∈ x :: set) = byte_eqb c x || bool_decide (c ∈ set)) as Hmem.
    { unfold byte_eqb. destruct (Ascii.eqb_spec c x) as [->|Hne].
      - by rewrite bool_decide_eq_true_2 by left.
      - cbn [orb]. apply bool_decide_ext. rewrite elem_of_cons.
        split; [by intros [?|?]|by right]. }
    destruct matched.
    + rewrite IH. cbn [length orb]. do 2 f_equal. lia.
    + assert (∃ d, (pre ++ x :: set ++ "]"%char :: post) !! (length pre + 1) = Some d
                   ∧ byte_eqb d "-" = false) as (d & -> & ->).
      { rewrite lookup_app_r by lia.
        replace (length pre + 1 - length pre) with 1 by lia. cbn [lookup list_lookup].
        destruct Hset as [|y set [_ Hy] _]; cbn; eexists; (split; [done|]).
        - done.
        - by apply Ascii.eqb_neq. }
      rewrite (list_lookup_total_correct _ (length pre) x)
        by (by apply list_lookup_middle).
      rewrite IH, Hmem. cbn [length orb]. do 2 f_equal. lia.
Qed.

(** X30: in the revision, a bracket expression whose members are plain
    bytes (no closing bracket, no dash, not starting with [!]) accepts a
    one-byte text exactly when the byte is one of the members. *)
Theorem Revised_stringMatch_bracket_set (c : ascii) (set : gostring) :
  set ≠ [] →
  head set ≠ Some "!"%char →
  Forall (fun x => x ≠ "]"%char ∧ x ≠ "-"%char) set →
  Revised.stringMatch [c] ("["%char :: set ++ ["]"%char]) = Some (bool_decide (c ∈ set)).
Proof.
  intros Hne Hbang Hset.
  pose proof (bracket_scan_set c set [] Hset ["["%char] false) as Hscan.
  cbn [app length] in Hscan.
  destruct set as [|d set]; [done|].
  assert (byte_eqb d "!" = false) as Hd1.
  { apply Ascii.eqb_neq. intros ->. by apply Hbang. }
  assert (byte_eqb d "]" = false) as Hd2.
  { apply Ascii.eqb_neq. by inversion Hset as [|? ? [? ?]]. }
  unfold Revised.stringMatch. cbn [length app Revised.stringMatch_rec seq for_each].
  cbn [Nat.leb lookup_total list_lookup_total].
  change (byte_eqb "[" "?") with false. change (byte_eqb "[" "*") with false.
  change (byte_eqb "[" "[") with true. cbn [lookup list_lookup Nat.add].
  rewrite Hd1, Hd2. cbn [app] in Hscan. rewrite Hscan.
  rewrite length_app. cbn [length Nat.add orb].
  replace (S (S (length set)) =? S (S (length set + 1))) with false
    by (symmetry; apply Nat.eqb_neq; lia).
  destruct (bool_decide (c ∈ d :: set)); cbn [Bool.eqb]; [|done].
  destruct (Z.ltb_spec (Z.of_nat (S (S (length set + 1))))
              (Z.of_nat (S (S (length set + 1))) - 1)); [lia|done].
Qed.

Lemma Revised_stringMatch_bracket_set_witness :
  Revised.stringMatch ["b"%char] ("["%char :: go "abc" ++ ["]"%char])
  = Some (bool_decide ("b"%char ∈ go "abc")).
Proof.
  apply (Revised_stringMatch_bracket_set "b" (go "abc")).
  - discriminate.
  - discriminate.
  - repeat constructor; discriminate.
Defined.
